(** * QuickReply: snippet store, query layer, tabular import and copy feedback

    A shallow embedding of the [App] component (the React function component
    of the repository) and of the [MessageSnippet] type of [types.ts].

    Component state held by [useState] hooks becomes a record, event handlers
    become functions on that record, and the two [useEffect] hooks (load from
    and save to [localStorage]) become explicit steps that run after the
    render they belong to.  ECMAScript built-ins the component calls
    ([String.prototype.includes], [trim], [Array.prototype.sort],
    [JSON.stringify], [JSON.parse], property lookup on a plain object) are
    written out as functions on lists of UTF-16 code units; the Unicode case
    table behind [toLowerCase], the shortest-digits algorithm behind
    [Number::toString] and the random source behind [crypto.randomUUID] are
    parameters. *)

From Stdlib Require Import String Ascii.
From Stdlib Require Import Floats.
From Stdlib Require Import List NArith Arith Lia Bool Permutation Sorted.
Import ListNotations.

Set Warnings "-register-all".

(* ================================================================== *)
(** * Part I: definitions                                               *)
(* ================================================================== *)

(** ** ECMAScript strings *)

(** A string value is a finite sequence of 16-bit code units. *)
Definition code_unit := N.
Definition jsstring := list code_unit.

(** Source literals, written as Rocq strings of ASCII characters. *)
Definition lit (s : string) : jsstring :=
  map N_of_ascii (list_ascii_of_string s).

Definition jsstring_eq_dec : forall a b : jsstring, {a = b} + {a <> b} :=
  list_eq_dec N.eq_dec.

Definition str_eqb (a b : jsstring) : bool :=
  if jsstring_eq_dec a b then true else false.

(** [s.startsWith(t)] at position 0. *)
Fixpoint startsWith (s t : jsstring) {struct t} : bool :=
  match t, s with
  | [], _ => true
  | _ :: _, [] => false
  | b :: t', a :: s' => N.eqb a b && startsWith s' t'
  end.

(** [s.includes(t)]: [t] occurs in [s] at some position. *)
Fixpoint includes (s t : jsstring) : bool :=
  startsWith s t ||
  match s with
  | [] => false
  | _ :: s' => includes s' t
  end.

(** The relational operator [<] on two strings: code-unit lexicographic
    order, a proper prefix being smaller. *)
Fixpoint str_ltb (a b : jsstring) : bool :=
  match a, b with
  | _, [] => false
  | [], _ :: _ => true
  | x :: a', y :: b' => N.ltb x y || (N.eqb x y && str_ltb a' b')
  end.

(** ** The data model ([types.ts]) *)

Record MessageSnippet := mkSnippet {
  id : jsstring;
  category : jsstring;
  title : jsstring;
  content : jsstring
}.

Inductive ViewMode := list_mode | add_mode | edit_mode.

Definition snippet_eq_dec : forall a b : MessageSnippet, {a = b} + {a <> b}.
Proof. decide equality; apply jsstring_eq_dec. Defined.

(** ** Query layer: [filteredMessages] *)

(** The callback of [messages.filter]; [term] is already lower-cased. *)
Definition matches_term (toLowerCase : jsstring -> jsstring)
    (term : jsstring) (m : MessageSnippet) : bool :=
  includes (toLowerCase (title m)) term ||
  includes (toLowerCase (category m)) term ||
  includes (toLowerCase (content m)) term.

Definition filteredMessages (toLowerCase : jsstring -> jsstring)
    (messages : list MessageSnippet) (searchTerm : jsstring)
    : list MessageSnippet :=
  let term := toLowerCase searchTerm in
  filter (matches_term toLowerCase term) messages.

(** Vocabulary of the query contract: [l] is a sub-sequence of [l'] when it
    is [l'] with some positions removed, the others keeping their order. *)
Inductive subsequence {A : Type} : list A -> list A -> Prop :=
| subsequence_nil : subsequence [] []
| subsequence_keep x l l' : subsequence l l' -> subsequence (x :: l) (x :: l')
| subsequence_drop x l l' : subsequence l l' -> subsequence l (x :: l').

(** [t] is a case-insensitive substring of [s]: the lower-cased [t] occurs
    in the lower-cased [s]. *)
Definition ci_substring (toLowerCase : jsstring -> jsstring) (t s : jsstring) : Prop :=
  exists pre post, toLowerCase s = pre ++ toLowerCase t ++ post.

Definition ci_match (toLowerCase : jsstring -> jsstring) (t : jsstring)
    (m : MessageSnippet) : Prop :=
  ci_substring toLowerCase t (title m) \/
  ci_substring toLowerCase t (category m) \/
  ci_substring toLowerCase t (content m).

(** An instance of the case table: the ASCII letters only. *)
Definition ascii_toLowerCase (s : jsstring) : jsstring :=
  map (fun u => if N.leb 65 u && N.leb u 90 then (u + 32)%N else u) s.

(** ** Query layer: [groupedMessages]

    [groups] is a plain object literal used as a map from category to an
    array of snippets.  Its own properties are kept in creation order; a
    property read that finds no own property continues to
    [Object.prototype]. *)

Definition Record_ := list (jsstring * list MessageSnippet).

(** The property names every plain object inherits from [Object.prototype]:
    eleven methods and the [__proto__] accessor.  Each reads as a truthy
    value (a function, or the prototype object) that has no [push]. *)
Definition Object_prototype_keys : list jsstring :=
  map lit
    [ "constructor"; "__defineGetter__"; "__defineSetter__"; "hasOwnProperty";
      "__lookupGetter__"; "__lookupSetter__"; "isPrototypeOf";
      "propertyIsEnumerable"; "toString"; "valueOf"; "__proto__";
      "toLocaleString" ]%string.

Definition inherited (k : jsstring) : bool :=
  existsb (str_eqb k) Object_prototype_keys.

Fixpoint own (k : jsstring) (groups : Record_) : option (list MessageSnippet) :=
  match groups with
  | [] => None
  | (k', items) :: rest => if str_eqb k k' then Some items else own k rest
  end.

(** [groups[k].push(m)] on an own property [k]. *)
Fixpoint push_at (k : jsstring) (m : MessageSnippet) (groups : Record_) : Record_ :=
  match groups with
  | [] => []
  | (k', items) :: rest =>
      if str_eqb k k' then (k', items ++ [m]) :: rest
      else (k', items) :: push_at k m rest
  end.

(** One turn of the [forEach] callback.  [None] is the [TypeError] raised
    by calling [push] on an inherited value: the guard
    [if (!groups[m.category])] sees that value as truthy and creates no own
    property, and the call that follows finds no [push] on it. *)
Definition group_step (groups : Record_) (m : MessageSnippet) : option Record_ :=
  match own (category m) groups with
  | Some _ => Some (push_at (category m) m groups)
  | None =>
      if inherited (category m) then None
      else Some (groups ++ [(category m, [m])])
  end.

Fixpoint forEach_group (groups : Record_) (ms : list MessageSnippet) : option Record_ :=
  match ms with
  | [] => Some groups
  | m :: rest =>
      match group_step groups m with
      | Some groups' => forEach_group groups' rest
      | None => None
      end
  end.

Definition groupedMessages (filtered : list MessageSnippet) : option Record_ :=
  forEach_group [] filtered.

(** Every snippet stored under a key has that key as its category. *)
Definition keyed (g : Record_) : Prop :=
  Forall (fun e => Forall (fun m => category m = fst e) (snd e)) g.

(** ** Display order: [Object.entries(groupedMessages).sort()] *)

Definition is_digit (u : code_unit) : bool := N.leb 48 u && N.leb u 57.

Definition decimal_value (s : jsstring) : N :=
  fold_left (fun acc u => (10 * acc + (u - 48))%N) s 0%N.

(** A property key is an array index when it is the canonical decimal
    numeral of an integer between 0 and 2^32 - 2. *)
Definition array_index (k : jsstring) : option N :=
  match k with
  | [] => None
  | u :: rest =>
      if forallb is_digit k
         && (negb (N.eqb u 48) || match rest with [] => true | _ => false end)
         && Nat.leb (length k) 10
         && N.leb (decimal_value k) 4294967294
      then Some (decimal_value k) else None
  end.

(** Stable insertion: [x] goes before the first element it is strictly
    smaller than, hence after every element it ties with. *)
Fixpoint insert_by {A} (ltb : A -> A -> bool) (x : A) (l : list A) : list A :=
  match l with
  | [] => [x]
  | y :: l' => if ltb x y then x :: l else y :: insert_by ltb x l'
  end.

Definition sort_by {A} (ltb : A -> A -> bool) (l : list A) : list A :=
  fold_left (fun acc x => insert_by ltb x acc) l [].

Definition is_index_entry (e : jsstring * list MessageSnippet) : bool :=
  match array_index (fst e) with Some _ => true | None => false end.

Definition index_ltb (a b : jsstring * list MessageSnippet) : bool :=
  N.ltb (decimal_value (fst a)) (decimal_value (fst b)).

(** [Object.entries]: own properties whose key is an array index first, in
    ascending numeric order, then the other keys in creation order. *)
Definition Object_entries (groups : Record_) : list (jsstring * list MessageSnippet) :=
  sort_by index_ltb (filter is_index_entry groups)
  ++ filter (fun e => negb (is_index_entry e)) groups.

(** [Array.prototype.join]. *)
Fixpoint join (sep : jsstring) (parts : list jsstring) : jsstring :=
  match parts with
  | [] => []
  | [p] => p
  | p :: rest => p ++ sep ++ join sep rest
  end.

(** [String(e)] for an entry [e = [category, items]]: the array's elements
    joined by a comma, where the inner array of snippet objects joins the
    text every plain object converts to. *)
Definition String_entry (e : jsstring * list MessageSnippet) : jsstring :=
  join (lit ",")
    [fst e; join (lit ",") (map (fun _ => lit "[object Object]") (snd e))].

(** [sort()] with no comparator: elements are ordered by [<] on their
    string conversions; the sort is stable. *)
Definition default_ltb (a b : jsstring * list MessageSnippet) : bool :=
  str_ltb (String_entry a) (String_entry b).

Definition Array_sort (entries : list (jsstring * list MessageSnippet)) :=
  sort_by default_ltb entries.

(** Two strings one of which is a prefix of the other. *)
Definition prefix_related (a b : jsstring) : Prop :=
  (exists x, b = a ++ x) \/ (exists x, a = b ++ x).

(** The groups in the order the list view renders them. *)
Definition displayed_groups (filtered : list MessageSnippet)
    : option (list (jsstring * list MessageSnippet)) :=
  match groupedMessages filtered with
  | Some groups => Some (Array_sort (Object_entries groups))
  | None => None
  end.

(** ** Tabular import: cells and their coercions

    [XLSX.utils.sheet_to_json(worksheet, { header: 1 })] yields an array of
    rows, each an array of cell values typed [any].  A cell is a string, a
    number (a double), a boolean, [null], or missing ([undefined]: a hole
    in the row or an index past its end). *)

Inductive cell :=
| c_undefined
| c_null
| c_boolean (b : bool)
| c_number (x : float)
| c_string (s : jsstring).

(** [ToBoolean]: of the numbers, the two zeros and NaN are falsy. *)
Definition truthy (c : cell) : bool :=
  match c with
  | c_undefined | c_null => false
  | c_boolean b => b
  | c_number x => negb (PrimFloat.eqb x 0 || PrimFloat.is_nan x)
  | c_string s => match s with [] => false | _ :: _ => true end
  end.

(** [String(c)].  The digits of a number are those the built-in
    [Number::toString] prints (["1.5"], ["1e+21"], ["NaN"]); that function
    is the parameter [Number_toString]. *)
Definition String_ (Number_toString : float -> jsstring) (c : cell) : jsstring :=
  match c with
  | c_undefined => lit "undefined"
  | c_null => lit "null"
  | c_boolean true => lit "true"
  | c_boolean false => lit "false"
  | c_number x => Number_toString x
  | c_string s => s
  end.

(** An instance of the number printer for examples: it agrees with
    [Number::toString] at the numbers the examples use, 0, 1, 1.5, 1e21 and
    NaN. *)
Definition example_Number_toString (x : float) : jsstring :=
  if PrimFloat.eqb x 0 then lit "0"
  else if PrimFloat.eqb x 1 then lit "1"
  else if PrimFloat.eqb x 1.5 then lit "1.5"
  else if PrimFloat.eqb x 1e21 then lit "1e+21"
  else lit "NaN".

(** [c || fallback] with a string literal on the right. *)
Definition or_else (c : cell) (fallback : jsstring) : cell :=
  if truthy c then c else c_string fallback.

(** [row[i]]. *)
Definition at_index (row : list cell) (i : nat) : cell := nth i row c_undefined.

(** The code units [trim] strips: WhiteSpace and LineTerminator. *)
Definition is_white_space (u : code_unit) : bool :=
  existsb (N.eqb u)
    [9; 10; 11; 12; 13; 32; 160; 5760; 8192; 8193; 8194; 8195; 8196; 8197;
     8198; 8199; 8200; 8201; 8202; 8232; 8233; 8239; 8287; 12288; 65279]%N.

Fixpoint trimStart (s : jsstring) : jsstring :=
  match s with
  | [] => []
  | u :: s' => if is_white_space u then trimStart s' else s
  end.

Definition trimEnd (s : jsstring) : jsstring := rev (trimStart (rev s)).

Definition trim (s : jsstring) : jsstring := trimEnd (trimStart s).

(** The fallback labels of the import: ['Sem Categoria'] and ['Sem Título']
    (the accented letter is the single code unit 237). *)
Definition Sem_Categoria : jsstring := lit "Sem Categoria".
Definition Sem_Titulo : jsstring := lit "Sem T" ++ [237%N] ++ lit "tulo".

(** The fallbacks of the entry form. *)
Definition Geral : jsstring := lit "Geral".

(** The retained rows: [.slice(1).filter(row => row.length >= 3)]. *)
Definition retained_rows (data : list (list cell)) : list (list cell) :=
  filter (fun row => Nat.leb 3 (List.length row)) (skipn 1 data).

(** The [.map] callback of the import; [k] counts the calls already made to
    [crypto.randomUUID], whose [k]-th result is [randomUUID k]. *)
Definition snippet_of_row (Number_toString : float -> jsstring)
    (randomUUID : nat -> jsstring) (k : nat) (row : list cell)
    : MessageSnippet :=
  {| id := randomUUID k;
     category :=
       trim (String_ Number_toString (or_else (at_index row 0) Sem_Categoria));
     title :=
       trim (String_ Number_toString (or_else (at_index row 1) Sem_Titulo));
     content := trim (String_ Number_toString (or_else (at_index row 2) [])) |}.

Fixpoint map_rows (Number_toString : float -> jsstring)
    (randomUUID : nat -> jsstring) (k : nat) (rows : list (list cell))
    : list MessageSnippet :=
  match rows with
  | [] => []
  | row :: rest =>
      snippet_of_row Number_toString randomUUID k row
      :: map_rows Number_toString randomUUID (S k) rest
  end.

(** The import contract as the specification words it: an empty or missing
    cell takes the fallback label, any other cell its trimmed string. *)
Definition empty_or_missing (c : cell) : bool :=
  match c with
  | c_undefined | c_null | c_string [] => true
  | _ => false
  end.

Definition field_as_specified (Number_toString : float -> jsstring)
    (c : cell) (fallback : jsstring) : jsstring :=
  if empty_or_missing c then fallback else trim (String_ Number_toString c).

(** The same with the test the code makes: a falsy cell (missing, [null],
    the empty string, a zero, NaN, [false]) takes the fallback label. *)
Definition field_of_cell (Number_toString : float -> jsstring)
    (c : cell) (fallback : jsstring) : jsstring :=
  if truthy c then trim (String_ Number_toString c) else fallback.

(** A generator for examples: the [k]-th identifier is [k] letters [u]. *)
Definition example_uuid (k : nat) : jsstring := repeat 117%N (S k).

(** ** JSON text

    [JSON.stringify] and [JSON.parse] over the JSON value tree.  A number
    keeps its lexeme. *)

Inductive json :=
| JNull
| JBool (b : bool)
| JNumber (lexeme : jsstring)
| JString (s : jsstring)
| JArray (elems : list json)
| JObject (members : list (jsstring * json)).

Definition hex_digit (d : N) : code_unit :=
  if N.ltb d 10 then (48 + d)%N else (87 + d)%N.

(** [\uXXXX] with lower-case hexadecimal digits. *)
Definition unicode_escape (u : code_unit) : jsstring :=
  [92; 117; hex_digit ((u / 4096) mod 16); hex_digit ((u / 256) mod 16);
   hex_digit ((u / 16) mod 16); hex_digit (u mod 16)]%N.

Definition is_leading_surrogate (u : code_unit) : bool :=
  N.leb 55296 u && N.leb u 56319.
Definition is_trailing_surrogate (u : code_unit) : bool :=
  N.leb 56320 u && N.leb u 57343.

(** The body of [QuoteJSONString]: the two-character escapes, [\uXXXX] for
    the other control characters and for unpaired surrogates, every other
    code point as it is. *)
Fixpoint quote_units (s : jsstring) : jsstring :=
  match s with
  | [] => []
  | u :: rest =>
      if N.eqb u 8 then lit "\b" ++ quote_units rest
      else if N.eqb u 9 then lit "\t" ++ quote_units rest
      else if N.eqb u 10 then lit "\n" ++ quote_units rest
      else if N.eqb u 12 then lit "\f" ++ quote_units rest
      else if N.eqb u 13 then lit "\r" ++ quote_units rest
      else if N.eqb u 34 then [92; 34]%N ++ quote_units rest
      else if N.eqb u 92 then [92; 92]%N ++ quote_units rest
      else if N.ltb u 32 then unicode_escape u ++ quote_units rest
      else if is_leading_surrogate u then
        match rest with
        | v :: rest' =>
            if is_trailing_surrogate v then u :: v :: quote_units rest'
            else unicode_escape u ++ quote_units rest
        | [] => unicode_escape u
        end
      else if is_trailing_surrogate u then unicode_escape u ++ quote_units rest
      else u :: quote_units rest
  end.

Definition QuoteJSONString (s : jsstring) : jsstring :=
  [34%N] ++ quote_units s ++ [34%N].

Fixpoint JSON_stringify (v : json) : jsstring :=
  match v with
  | JNull => lit "null"
  | JBool true => lit "true"
  | JBool false => lit "false"
  | JNumber lexeme => lexeme
  | JString s => QuoteJSONString s
  | JArray elems =>
      lit "[" ++ join (lit ",") (map JSON_stringify elems) ++ lit "]"
  | JObject members =>
      lit "{"
      ++ join (lit ",")
           (map (fun kv => QuoteJSONString (fst kv) ++ lit ":" ++ JSON_stringify (snd kv))
                members)
      ++ lit "}"
  end.

(** The value tree of a snippet (an object literal with its four
    properties in source order) and of the collection. *)
Definition snippet_to_json (m : MessageSnippet) : json :=
  JObject [ (lit "id", JString (id m)); (lit "category", JString (category m));
            (lit "title", JString (title m)); (lit "content", JString (content m)) ].

Definition to_json (messages : list MessageSnippet) : json :=
  JArray (map snippet_to_json messages).

(** The comma-separated texts of the snippets of a collection. *)
Definition elements_text (ms : list MessageSnippet) : jsstring :=
  join (lit ",") (map JSON_stringify (map snippet_to_json ms)).

(** The parsed value read back at the type [MessageSnippet[]]: defined on
    the trees [to_json] produces, and on no other. *)
Definition as_snippet (v : json) : option MessageSnippet :=
  match v with
  | JObject [ (k1, JString a); (k2, JString b); (k3, JString c); (k4, JString d) ] =>
      if str_eqb k1 (lit "id") && str_eqb k2 (lit "category")
         && str_eqb k3 (lit "title") && str_eqb k4 (lit "content")
      then Some (mkSnippet a b c d) else None
  | _ => None
  end.

Fixpoint as_snippets (vs : list json) : option (list MessageSnippet) :=
  match vs with
  | [] => Some []
  | v :: rest =>
      match as_snippet v, as_snippets rest with
      | Some m, Some ms => Some (m :: ms)
      | _, _ => None
      end
  end.

Definition as_messages (v : json) : option (list MessageSnippet) :=
  match v with
  | JArray elems => as_snippets elems
  | _ => None
  end.

(** *** [JSON.parse] *)

Definition is_json_ws (u : code_unit) : bool :=
  N.eqb u 32 || N.eqb u 9 || N.eqb u 10 || N.eqb u 13.

Fixpoint skip_ws (s : jsstring) : jsstring :=
  match s with
  | [] => []
  | u :: s' => if is_json_ws u then skip_ws s' else s
  end.

Definition hex_value (u : code_unit) : option N :=
  if N.leb 48 u && N.leb u 57 then Some (u - 48)%N
  else if N.leb 97 u && N.leb u 102 then Some (u - 87)%N
  else if N.leb 65 u && N.leb u 70 then Some (u - 55)%N
  else None.

Definition hex4 (a b c d : code_unit) : option code_unit :=
  match hex_value a, hex_value b, hex_value c, hex_value d with
  | Some x, Some y, Some z, Some w => Some (4096 * x + 256 * y + 16 * z + w)%N
  | _, _, _, _ => None
  end.

(** Put a decoded code unit in front of the string a parse returned. *)
Definition cons_ (u : code_unit) (r : option (jsstring * jsstring))
    : option (jsstring * jsstring) :=
  match r with
  | Some (str, rest) => Some (u :: str, rest)
  | None => None
  end.

(** The characters of a string literal after its opening quote: the decoded
    string and the text after the closing quote.  A control character, an
    unknown escape or a missing closing quote is an error. *)
Fixpoint parse_chars (s : jsstring) : option (jsstring * jsstring) :=
  match s with
  | [] => None
  | u :: s1 =>
      if N.eqb u 34 then Some ([], s1)
      else if N.eqb u 92 then
        match s1 with
        | [] => None
        | e :: s2 =>
            if N.eqb e 34 then cons_ 34%N (parse_chars s2)
            else if N.eqb e 92 then cons_ 92%N (parse_chars s2)
            else if N.eqb e 47 then cons_ 47%N (parse_chars s2)
            else if N.eqb e 98 then cons_ 8%N (parse_chars s2)
            else if N.eqb e 102 then cons_ 12%N (parse_chars s2)
            else if N.eqb e 110 then cons_ 10%N (parse_chars s2)
            else if N.eqb e 114 then cons_ 13%N (parse_chars s2)
            else if N.eqb e 116 then cons_ 9%N (parse_chars s2)
            else if N.eqb e 117 then
              match s2 with
              | a :: b :: c :: d :: s3 =>
                  match hex4 a b c d with
                  | Some v => cons_ v (parse_chars s3)
                  | None => None
                  end
              | _ => None
              end
            else None
        end
      else if N.ltb u 32 then None
      else cons_ u (parse_chars s1)
  end.

(** The longest prefix of decimal digits. *)
Fixpoint span_digits (s : jsstring) : jsstring * jsstring :=
  match s with
  | [] => ([], [])
  | u :: s' =>
      if is_digit u then let (ds, rest) := span_digits s' in (u :: ds, rest)
      else ([], s)
  end.

(** A number: an optional minus sign; then a single zero, or a non-zero
    digit followed by digits; then optionally a point and one or more
    digits; then optionally an exponent mark, a sign and one or more digits. *)
Definition parse_int_part (s : jsstring) : option (jsstring * jsstring) :=
  match s with
  | [] => None
  | u :: s' =>
      if N.eqb u 48 then Some ([u], s')
      else if is_digit u then let (ds, rest) := span_digits s' in Some (u :: ds, rest)
      else None
  end.

Definition parse_frac_part (s : jsstring) : option (jsstring * jsstring) :=
  match s with
  | u :: s' =>
      if N.eqb u 46 then
        match span_digits s' with
        | ([], _) => None
        | (ds, rest) => Some (u :: ds, rest)
        end
      else Some ([], s)
  | [] => Some ([], s)
  end.

Definition parse_exp_part (s : jsstring) : option (jsstring * jsstring) :=
  match s with
  | u :: s' =>
      if N.eqb u 101 || N.eqb u 69 then
        let (sign, s'') :=
          match s' with
          | g :: t => if N.eqb g 43 || N.eqb g 45 then ([g], t) else ([], s')
          | [] => ([], s')
          end in
        match span_digits s'' with
        | ([], _) => None
        | (ds, rest) => Some (u :: sign ++ ds, rest)
        end
      else Some ([], s)
  | [] => Some ([], s)
  end.

Definition parse_number (s : jsstring) : option (jsstring * jsstring) :=
  let (minus, s0) :=
    match s with
    | u :: s' => if N.eqb u 45 then ([u], s') else ([], s)
    | [] => ([], s)
    end in
  match parse_int_part s0 with
  | None => None
  | Some (i, s1) =>
      match parse_frac_part s1 with
      | None => None
      | Some (f, s2) =>
          match parse_exp_part s2 with
          | None => None
          | Some (e, s3) => Some (minus ++ i ++ f ++ e, s3)
          end
      end
  end.

(** [strip p s]: the rest of [s] after the literal [p], when [s] starts
    with it. *)
Fixpoint strip (p s : jsstring) {struct p} : option jsstring :=
  match p, s with
  | [], _ => Some s
  | _ :: _, [] => None
  | a :: p', b :: s' => if N.eqb a b then strip p' s' else None
  end.

(** The three productions that nest, each written over the parsers it
    calls: a value, the elements of an array after its opening bracket, and
    the members of an object after its opening brace. *)

Definition value_body
    (elements : jsstring -> option (list json * jsstring))
    (members : jsstring -> option (list (jsstring * json) * jsstring))
    (s : jsstring) : option (json * jsstring) :=
  match skip_ws s with
  | [] => None
  | u :: rest =>
      if N.eqb u 34 then
        match parse_chars rest with
        | Some (str, r) => Some (JString str, r)
        | None => None
        end
      else if N.eqb u 91 then
        match skip_ws rest with
        | c :: r =>
            if N.eqb c 93 then Some (JArray [], r)
            else
              match elements rest with
              | Some (vs, r') => Some (JArray vs, r')
              | None => None
              end
        | [] => None
        end
      else if N.eqb u 123 then
        match skip_ws rest with
        | c :: r =>
            if N.eqb c 125 then Some (JObject [], r)
            else
              match members rest with
              | Some (kvs, r') => Some (JObject kvs, r')
              | None => None
              end
        | [] => None
        end
      else if N.eqb u 116 then
        match strip (lit "rue") rest with
        | Some r => Some (JBool true, r)
        | None => None
        end
      else if N.eqb u 102 then
        match strip (lit "alse") rest with
        | Some r => Some (JBool false, r)
        | None => None
        end
      else if N.eqb u 110 then
        match strip (lit "ull") rest with
        | Some r => Some (JNull, r)
        | None => None
        end
      else
        match parse_number (u :: rest) with
        | Some (lexeme, r) => Some (JNumber lexeme, r)
        | None => None
        end
  end.

Definition elements_body
    (value : jsstring -> option (json * jsstring))
    (elements : jsstring -> option (list json * jsstring))
    (s : jsstring) : option (list json * jsstring) :=
  match value s with
  | None => None
  | Some (v, r) =>
      match skip_ws r with
      | c :: r' =>
          if N.eqb c 44 then
            match elements r' with
            | Some (vs, r'') => Some (v :: vs, r'')
            | None => None
            end
          else if N.eqb c 93 then Some ([v], r')
          else None
      | [] => None
      end
  end.

Definition members_body
    (value : jsstring -> option (json * jsstring))
    (members : jsstring -> option (list (jsstring * json) * jsstring))
    (s : jsstring) : option (list (jsstring * json) * jsstring) :=
  match skip_ws s with
  | q :: s1 =>
      if N.eqb q 34 then
        match parse_chars s1 with
        | None => None
        | Some (k, s2) =>
            match skip_ws s2 with
            | colon :: s3 =>
                if N.eqb colon 58 then
                  match value s3 with
                  | None => None
                  | Some (v, r) =>
                      match skip_ws r with
                      | c :: r' =>
                          if N.eqb c 44 then
                            match members r' with
                            | Some (kvs, r'') => Some ((k, v) :: kvs, r'')
                            | None => None
                            end
                          else if N.eqb c 125 then Some ([(k, v)], r')
                          else None
                      | [] => None
                      end
                  end
                else None
            | [] => None
            end
        end
      else None
  | [] => None
  end.

(** Recursive descent, the recursion bounded by [fuel].  A parse that
    succeeds with some fuel succeeds with one unit more than the characters
    it consumes ([parse_value_fuel] below), so the length of the text is
    fuel enough. *)
Fixpoint parse_value (fuel : nat) (s : jsstring) : option (json * jsstring) :=
  match fuel with
  | O => None
  | S fuel' => value_body (parse_elements fuel') (parse_members fuel') s
  end

with parse_elements (fuel : nat) (s : jsstring) : option (list json * jsstring) :=
  match fuel with
  | O => None
  | S fuel' => elements_body (parse_value fuel') (parse_elements fuel') s
  end

with parse_members (fuel : nat) (s : jsstring)
    : option (list (jsstring * json) * jsstring) :=
  match fuel with
  | O => None
  | S fuel' => members_body (parse_value fuel') (parse_members fuel') s
  end.

(** [JSON.parse(text)]: one value, then nothing but white space.  [None]
    is the [SyntaxError]. *)
Definition JSON_parse (text : jsstring) : option json :=
  match parse_value (S (List.length text)) text with
  | Some (v, rest) =>
      match skip_ws rest with
      | [] => Some v
      | _ :: _ => None
      end
  | None => None
  end.

(** Two properties of parsers used to justify the fuel: [q] extends [p]
    when it agrees with every success of [p]; [p] consumes when what it
    leaves is no longer than what it was given. *)
Definition extends {A : Type} (p q : jsstring -> option A) : Prop :=
  forall s x, p s = Some x -> q s = Some x.

Definition consumes {A : Type} (p : jsstring -> option (A * jsstring)) : Prop :=
  forall s x r, p s = Some (x, r) -> List.length r <= List.length s.

(** [p'] has fuel enough for the calls a production makes to [p] while it
    parses [s] down to [r]: it agrees with [p] on every call that consumes
    less than the production does. *)
Definition fuel_ok {A : Type} (p p' : jsstring -> option (A * jsstring))
    (s r : jsstring) : Prop :=
  forall t y r', p t = Some (y, r') ->
    List.length t - List.length r' < List.length s - List.length r ->
    p' t = Some (y, r').

(** ** The component and its environment

    The [useState] cells the handlers below read or write, followed by the
    parts of the browser they act on: the [localStorage] entry
    ['quickreply_messages'] ([None] when the key is absent), the errors
    written to the console, the number of calls made to
    [crypto.randomUUID], the clock in milliseconds, and the deadlines of
    the pending [setTimeout] callbacks (each is [() => setCopyFeedback(null)]). *)

Inductive console_error := Error_loading_snippets | Failed_to_copy_text.

Record World := mkWorld {
  messages : list MessageSnippet;
  viewMode : ViewMode;
  editingSnippet : option MessageSnippet;
  copyFeedback : option jsstring;
  showConfig : bool;
  storage : option jsstring;
  console : list console_error;
  uuid_calls : nat;
  now : N;
  timers : list N
}.

Definition set_messages (v : list MessageSnippet) (w : World) : World :=
  mkWorld v (viewMode w) (editingSnippet w) (copyFeedback w) (showConfig w)
          (storage w) (console w) (uuid_calls w) (now w) (timers w).

Definition set_form (vm : ViewMode) (e : option MessageSnippet) (w : World) : World :=
  mkWorld (messages w) vm e (copyFeedback w) (showConfig w)
          (storage w) (console w) (uuid_calls w) (now w) (timers w).

Definition set_copyFeedback (f : option jsstring) (w : World) : World :=
  mkWorld (messages w) (viewMode w) (editingSnippet w) f (showConfig w)
          (storage w) (console w) (uuid_calls w) (now w) (timers w).

Definition set_showConfig (b : bool) (w : World) : World :=
  mkWorld (messages w) (viewMode w) (editingSnippet w) (copyFeedback w) b
          (storage w) (console w) (uuid_calls w) (now w) (timers w).

Definition set_storage (v : option jsstring) (w : World) : World :=
  mkWorld (messages w) (viewMode w) (editingSnippet w) (copyFeedback w)
          (showConfig w) v (console w) (uuid_calls w) (now w) (timers w).

Definition console_error_ (e : console_error) (w : World) : World :=
  mkWorld (messages w) (viewMode w) (editingSnippet w) (copyFeedback w)
          (showConfig w) (storage w) (console w ++ [e]) (uuid_calls w) (now w)
          (timers w).

Definition set_uuid_calls (k : nat) (w : World) : World :=
  mkWorld (messages w) (viewMode w) (editingSnippet w) (copyFeedback w)
          (showConfig w) (storage w) (console w) k (now w) (timers w).

Definition set_clock (t : N) (pending : list N) (w : World) : World :=
  mkWorld (messages w) (viewMode w) (editingSnippet w) (copyFeedback w)
          (showConfig w) (storage w) (console w) (uuid_calls w) t pending.

(** The component as first rendered, over a given storage entry. *)
Definition initial (entry : option jsstring) : World :=
  mkWorld [] list_mode None None false entry [] 0 0%N [].

(** *** The two effects *)

(** The save effect, [useEffect(..., [messages])]:
    [localStorage.setItem('quickreply_messages', JSON.stringify(messages))]. *)
Definition save_effect (w : World) : World :=
  set_storage (Some (JSON_stringify (to_json (messages w)))) w.

(** A call [setMessages(v)], the render it causes when that render
    completes, and the effect after it.  Every call site passes a newly
    allocated array ([[]], a spread, the result of [map] or [filter], a
    parsed value), so the state changes identity and the save effect, which
    depends on [messages], runs after the render.  The render itself
    evaluates [groupedMessages] and can throw; whether it completes is
    decided by [render_ok] below, and [mount] and [step] use this function
    only where it does. *)
Definition setMessages (v : list MessageSnippet) (w : World) : World :=
  save_effect (set_messages v w).

(** The load effect, [useEffect(..., [])]: the value it passes to
    [setMessages], if any.  An absent key reads as [null] and an empty
    entry as the empty string, both falsy; a [SyntaxError] is caught and
    written to the console. *)
Definition load_effect (w : World) : World * option json :=
  match storage w with
  | None => (w, None)
  | Some [] => (w, None)
  | Some saved =>
      match JSON_parse saved with
      | Some v => (w, Some v)
      | None => (console_error_ Error_loading_snippets w, None)
      end
  end.

(** How start-up ends: with the component rendered over a world; with the
    component removed because the render of the loaded collection threw
    (what is left is the browser's side of the world); or with [messages]
    holding a parsed value that is not an array of objects with exactly the
    four string properties of a snippet in source order, a run of which the
    type [MessageSnippet[]] says nothing. *)
Inductive startup :=
| started (w : World)
| unmounted (w : World)
| ill_typed (v : json).

(** Mounting: after the first render (with [messages = []]) the load effect
    runs, then the save effect of that same render, which writes the text
    [[]]; the state update the load effect requested then causes a second
    render.  The search term is still the empty string, under which the
    filter keeps every snippet, so that render groups the whole loaded
    collection: if grouping throws, React removes the component and no
    further effect runs; otherwise the save effect writes the collection. *)
Definition mount (entry : option jsstring) : startup :=
  let (w1, update) := load_effect (initial entry) in
  let w2 := save_effect w1 in
  match update with
  | None => started w2
  | Some v =>
      match as_messages v with
      | Some ms =>
          match groupedMessages ms with
          | Some _ => started (setMessages ms w2)
          | None => unmounted w2
          end
      | None => ill_typed v
      end
  end.

(** [load()] of the store contract: the collection the component holds
    once start-up is over, if it holds one. *)
Definition load (entry : option jsstring) : option (list MessageSnippet) :=
  match mount entry with
  | started w => Some (messages w)
  | unmounted _ => None
  | ill_typed _ => None
  end.

(** *** Handlers *)

(** The "Zerar Banco de Dados" button; [confirmed] is the answer to
    [confirm('Deseja realmente limpar tudo?')].  The handler requests
    [setMessages([])] and removes the entry; the render follows. *)
Definition clear_all (confirmed : bool) (w : World) : World :=
  if confirmed then setMessages [] (set_storage None w) else w.

(** [deleteSnippet]. *)
Definition deleteSnippet (confirmed : bool) (id_ : jsstring) (w : World) : World :=
  if confirmed
  then setMessages (filter (fun m => negb (str_eqb (id m) id_)) (messages w)) w
  else w.

(** [s || fallback] on strings. *)
Definition str_or (s fallback : jsstring) : jsstring :=
  match s with [] => fallback | _ :: _ => s end.

(** The three text fields of the submitted form. *)
Record FormData := mkForm {
  form_category : jsstring;
  form_title : jsstring;
  form_content : jsstring
}.

(** [editingSnippet?.id || crypto.randomUUID()]: the id, and whether the
    generator was called. *)
Definition snippet_id (randomUUID : nat -> jsstring) (w : World) : jsstring * nat :=
  match editingSnippet w with
  | Some e =>
      match id e with
      | [] => (randomUUID (uuid_calls w), S (uuid_calls w))
      | _ :: _ => (id e, uuid_calls w)
      end
  | None => (randomUUID (uuid_calls w), S (uuid_calls w))
  end.

(** The snippet [addOrUpdateSnippet] builds from the form. *)
Definition form_snippet (randomUUID : nat -> jsstring) (form : FormData)
    (w : World) : MessageSnippet :=
  {| id := fst (snippet_id randomUUID w);
     category := str_or (form_category form) Geral;
     title := str_or (form_title form) Sem_Titulo;
     content := str_or (form_content form) [] |}.

(** [prev.map(m => m.id === snippet.id ? snippet : m)]. *)
Definition replace_by_id (snippet : MessageSnippet) (prev : list MessageSnippet)
    : list MessageSnippet :=
  map (fun m => if str_eqb (id m) (id snippet) then snippet else m) prev.

Definition addOrUpdateSnippet (randomUUID : nat -> jsstring) (form : FormData)
    (w : World) : World :=
  let snippet := form_snippet randomUUID form w in
  let w1 := set_uuid_calls (snd (snippet_id randomUUID w)) w in
  let w2 :=
    match viewMode w with
    | edit_mode => setMessages (replace_by_id snippet (messages w)) w1
    | _ => setMessages (messages w ++ [snippet]) w1
    end in
  set_form list_mode None w2.

(** The item's edit button. *)
Definition start_edit (item : MessageSnippet) (w : World) : World :=
  set_form edit_mode (Some item) w.

(** [handleFileUpload], from the rows [sheet_to_json] returned. *)
Definition handleFileUpload (Number_toString : float -> jsstring)
    (randomUUID : nat -> jsstring) (data : list (list cell)) (w : World)
    : World :=
  let newSnippets := map_rows Number_toString randomUUID (uuid_calls w) (retained_rows data) in
  let w1 := set_uuid_calls (uuid_calls w + List.length newSnippets) w in
  if Nat.ltb 0 (List.length newSnippets)
  then set_showConfig false (setMessages (messages w ++ newSnippets) w1)
  else w1.

(** *** Copy feedback and timers *)

(** [handleCopy] once [navigator.clipboard.writeText] has settled:
    [written] tells whether the promise was fulfilled.  The timer is
    registered and never cancelled. *)
Definition handleCopy (written : bool) (id_ : jsstring) (w : World) : World :=
  if written
  then set_clock (now w) (timers w ++ [(now w + 1000)%N])
         (set_copyFeedback (Some id_) w)
  else console_error_ Failed_to_copy_text w.

(** Time passes with no user action: every pending callback whose deadline
    is reached runs, and each run is [setCopyFeedback(null)]. *)
Definition elapse (dt : N) (w : World) : World :=
  let t := (now w + dt)%N in
  let due := filter (fun d => N.leb d t) (timers w) in
  let pending := filter (fun d => negb (N.leb d t)) (timers w) in
  let w1 := match due with
            | [] => w
            | _ :: _ => set_copyFeedback None w
            end in
  set_clock t pending w1.

(** What the user and the clock do to the copy feedback. *)
Inductive copy_event :=
| copy_settled (written : bool) (id_ : jsstring)
| time_passes (dt : N).

Definition copy_step (w : World) (e : copy_event) : World :=
  match e with
  | copy_settled written id_ => handleCopy written id_ w
  | time_passes dt => elapse dt w
  end.

Definition run_copy (events : list copy_event) (w : World) : World :=
  fold_left copy_step events w.

(** ** The rest of the component

    The handlers and views the sections above leave out: the expansion
    toggles, the buttons that open and close the form and the settings
    overlay, the export button, and the component driven by a sequence of
    user actions. *)

(** *** Expansion sets

    [expandedCategories] and [expandedMessages] are [Set<string>] values:
    their elements in insertion order, none twice. *)

Definition Set_has (k : jsstring) (s : list jsstring) : bool :=
  existsb (str_eqb k) s.

Definition Set_delete (k : jsstring) (s : list jsstring) : list jsstring :=
  filter (fun x => negb (str_eqb k x)) s.

Definition Set_add (k : jsstring) (s : list jsstring) : list jsstring :=
  if Set_has k s then s else s ++ [k].

(** [toggleCategory] and [toggleMessage]: a copy of the set with the key
    removed when it was there, added when it was not. *)
Definition toggleCategory (expandedCategories : list jsstring)
    (category_ : jsstring) : list jsstring :=
  if Set_has category_ expandedCategories
  then Set_delete category_ expandedCategories
  else Set_add category_ expandedCategories.

Definition toggleMessage (expandedMessages : list jsstring)
    (id_ : jsstring) : list jsstring :=
  if Set_has id_ expandedMessages
  then Set_delete id_ expandedMessages
  else Set_add id_ expandedMessages.

(** *** Buttons *)

(** The header's "Adicionar" button: [setViewMode('add')] and nothing
    else. *)
Definition open_add (w : World) : World :=
  set_form add_mode (editingSnippet w) w.

(** The form's close button. *)
Definition close_form (w : World) : World := set_form list_mode None w.

(** The header's "Configurar" button and the overlay's close button. *)
Definition toggle_config (w : World) : World :=
  set_showConfig (negb (showConfig w)) w.

Definition close_config (w : World) : World := set_showConfig false w.

(** The "Exportar Dados" button: the text of the downloaded file. *)
Definition export_text (w : World) : jsstring :=
  JSON_stringify (to_json (messages w)).

(** *** User actions

    [act] is the handler of an action together with the render after it,
    taken to complete; [step] below decides whether it does. *)

Inductive action :=
| click_add
| click_edit (item : MessageSnippet)
| click_close_form
| submit_form (form : FormData)
| click_delete (confirmed : bool) (id_ : jsstring)
| click_clear (confirmed : bool)
| upload (data : list (list cell))
| click_config
| click_close_config
| copy (written : bool) (id_ : jsstring)
| wait (dt : N).

Definition act (Number_toString : float -> jsstring)
    (randomUUID : nat -> jsstring) (w : World) (a : action) : World :=
  match a with
  | click_add => open_add w
  | click_edit item => start_edit item w
  | click_close_form => close_form w
  | submit_form form => addOrUpdateSnippet randomUUID form w
  | click_delete confirmed id_ => deleteSnippet confirmed id_ w
  | click_clear confirmed => clear_all confirmed w
  | upload data => handleFileUpload Number_toString randomUUID data w
  | click_config => toggle_config w
  | click_close_config => close_config w
  | copy written id_ => handleCopy written id_ w
  | wait dt => elapse dt w
  end.

Definition run (Number_toString : float -> jsstring)
    (randomUUID : nat -> jsstring) (actions : list action) (w : World)
    : World :=
  fold_left (act Number_toString randomUUID) actions w.

(** *** Renders that throw

    Every state update is followed by a render, and the render evaluates
    [groupedMessages] over the snippets the current search term keeps.  A
    [TypeError] there is caught by nothing: React removes the component,
    the effects of that render do not run, and no handler can run
    afterwards.  What is left is the storage entry as the last completed
    render's save effect (or the handler) wrote it. *)

Definition render_ok (toLowerCase : jsstring -> jsstring)
    (searchTerm : jsstring) (ms : list MessageSnippet) : bool :=
  match groupedMessages (filteredMessages toLowerCase ms searchTerm) with
  | Some _ => true
  | None => false
  end.

(** The component on screen with its world and search term, or removed,
    with the storage entry it left. *)
Inductive session :=
| running (w : World) (searchTerm : jsstring)
| crashed (entry : option jsstring).

(** A user action, or typing in the search box ([setSearchTerm]). *)
Inductive event :=
| user (a : action)
| type_search (t : jsstring).

(** One event and the render after it.  The only handler that writes to
    the storage itself is the confirmed clear, whose render (of the empty
    collection) never throws; so a render that throws leaves the entry of
    the world before the event. *)
Definition step (toLowerCase : jsstring -> jsstring)
    (Number_toString : float -> jsstring) (randomUUID : nat -> jsstring)
    (s : session) (e : event) : session :=
  match s with
  | crashed entry => crashed entry
  | running w searchTerm =>
      match e with
      | user a =>
          let w' := act Number_toString randomUUID w a in
          if render_ok toLowerCase searchTerm (messages w')
          then running w' searchTerm
          else crashed (storage w)
      | type_search t =>
          if render_ok toLowerCase t (messages w)
          then running w t
          else crashed (storage w)
      end
  end.

Definition run_session (toLowerCase : jsstring -> jsstring)
    (Number_toString : float -> jsstring) (randomUUID : nat -> jsstring)
    (events : list event) (s : session) : session :=
  fold_left (step toLowerCase Number_toString randomUUID) events s.

(** *** Invariants *)

(** The storage entry holds the text of the collection in memory. *)
Definition synced (w : World) : Prop :=
  storage w = Some (JSON_stringify (to_json (messages w))).

(** The ids of the collection are pairwise distinct, and none of them is an
    identifier the generator is still to return (the ids may come from this
    run or from a stored collection). *)
Definition unique_ids (randomUUID : nat -> jsstring) (w : World) : Prop :=
  NoDup (map id (messages w))
  /\ forall m k, In m (messages w) -> uuid_calls w <= k -> id m <> randomUUID k.

(** The pending timers lie in the coming second, and an acknowledgment is
    shown only while some timer is pending. *)
Definition timers_bounded (w : World) : Prop :=
  (forall d, In d (timers w) -> (now w < d <= now w + 1000)%N)
  /\ (copyFeedback w <> None -> timers w <> []).

(* ================================================================== *)
(** * Part II: properties                                               *)
(* ================================================================== *)

(** ** Substring search *)

Lemma startsWith_spec (s t : jsstring) :
  startsWith s t = true <-> exists post, s = t ++ post.
Proof.
  revert s; induction t as [|b t IH]; intros s; simpl.
  - split; [intros _; now exists s | reflexivity].
  - destruct s as [|a s].
    + split; [discriminate | intros [post H]; discriminate].
    + rewrite andb_true_iff, N.eqb_eq, IH. split.
      * intros [-> [post ->]]. now exists post.
      * intros [post H]. injection H as -> ->. split; [reflexivity | now exists post].
Qed.

Lemma includes_spec (s t : jsstring) :
  includes s t = true <-> exists pre post, s = pre ++ t ++ post.
Proof.
  induction s as [|a s IH]; simpl.
  - rewrite orb_false_r, startsWith_spec. split.
    + intros [post H]. now exists [], post.
    + intros [pre [post H]]. destruct pre; [now exists post | discriminate].
  - rewrite orb_true_iff, startsWith_spec, IH. split.
    + intros [[post H] | [pre [post H]]].
      * now exists [], post.
      * exists (a :: pre), post. simpl. now rewrite H.
    + intros [pre [post H]]. destruct pre as [|x pre].
      * left. now exists post.
      * right. injection H as _ H. now exists pre, post.
Qed.

Lemma includes_empty (s : jsstring) : includes s [] = true.
Proof. destruct s; reflexivity. Qed.

(** ** [filteredMessages] *)

Lemma filter_subsequence {A} (f : A -> bool) (l : list A) :
  subsequence (filter f l) l.
Proof.
  induction l as [|x l IH]; simpl.
  - constructor.
  - destruct (f x); now constructor.
Qed.

Lemma filter_count_occ {A} (dec : forall a b : A, {a = b} + {a <> b})
    (f : A -> bool) (l : list A) (x : A) :
  count_occ dec (filter f l) x = if f x then count_occ dec l x else 0.
Proof.
  induction l as [|y l IH]; simpl.
  - now destruct (f x).
  - destruct (f y) eqn:Fy; simpl; destruct (dec y x) as [->|N]; rewrite IH.
    + now rewrite Fy.
    + reflexivity.
    + now rewrite Fy.
    + reflexivity.
Qed.

Section Filter.
Variable toLowerCase : jsstring -> jsstring.

Lemma matches_term_spec (t : jsstring) (m : MessageSnippet) :
  matches_term toLowerCase (toLowerCase t) m = true <-> ci_match toLowerCase t m.
Proof.
  unfold matches_term, ci_match, ci_substring.
  rewrite !orb_true_iff, !includes_spec. tauto.
Qed.

(** The lower-casing of the empty string is empty. *)
Hypothesis toLowerCase_empty : toLowerCase [] = [].

(** C1.  For every collection [C] and search term [t],
    [filteredMessages C t] is a sub-sequence of [C] (relative order kept,
    nothing ranked); it keeps only snippets of which [t] is a
    case-insensitive substring of the title, the category or the content;
    it keeps every occurrence of each such snippet; and with the empty term
    it is [C] itself. *)
Theorem filteredMessages_exact (C : list MessageSnippet) (t : jsstring) :
  subsequence (filteredMessages toLowerCase C t) C
  /\ (forall m, In m (filteredMessages toLowerCase C t) <->
                In m C /\ ci_match toLowerCase t m)
  /\ (forall m, ci_match toLowerCase t m ->
        count_occ snippet_eq_dec (filteredMessages toLowerCase C t) m
        = count_occ snippet_eq_dec C m)
  /\ (forall m, ~ ci_match toLowerCase t m ->
        count_occ snippet_eq_dec (filteredMessages toLowerCase C t) m = 0)
  /\ filteredMessages toLowerCase C [] = C.
Proof.
  unfold filteredMessages.
  split; [apply filter_subsequence|].
  split.
  { intros m. rewrite filter_In, matches_term_spec. reflexivity. }
  split.
  { intros m Hm. rewrite filter_count_occ.
    apply matches_term_spec in Hm. now rewrite Hm. }
  split.
  { intros m Hm. rewrite filter_count_occ.
    destruct (matches_term _ _ m) eqn:E; [|reflexivity].
    apply matches_term_spec in E. contradiction. }
  rewrite toLowerCase_empty. induction C as [|m C IH]; simpl; [reflexivity|].
  unfold matches_term at 1. rewrite includes_empty. simpl. now rewrite IH.
Qed.
End Filter.

Lemma filteredMessages_exact_witness :
  let m1 := mkSnippet (lit "1") (lit "Sales") (lit "Greeting") (lit "Hello!") in
  let m2 := mkSnippet (lit "2") (lit "Support") (lit "Closing") (lit "See you") in
  ascii_toLowerCase [] = []
  /\ In m1 (filteredMessages ascii_toLowerCase [m1; m2] (lit "HELLO"))
  /\ count_occ snippet_eq_dec
       (filteredMessages ascii_toLowerCase [m1; m2] (lit "HELLO")) m2 = 0.
Proof.
  intros m1 m2. split; [reflexivity|].
  destruct (filteredMessages_exact ascii_toLowerCase eq_refl [m1; m2] (lit "HELLO"))
    as (_ & Hin & _ & Hout & _).
  split.
  - apply Hin. split; [now left|]. right; right. now exists [], (lit "!").
  - reflexivity.
Defined.

(** ** [groupedMessages] *)

Lemma str_eqb_eq (a b : jsstring) : str_eqb a b = true <-> a = b.
Proof. unfold str_eqb. destruct (jsstring_eq_dec a b); split; congruence. Qed.

Lemma str_eqb_neq (a b : jsstring) : str_eqb a b = false <-> a <> b.
Proof. unfold str_eqb. destruct (jsstring_eq_dec a b); split; congruence. Qed.

Lemma own_None_keys (k : jsstring) (g : Record_) :
  own k g = None -> ~ In k (map fst g).
Proof.
  induction g as [|[k' items] g IH]; simpl; [tauto|].
  destruct (str_eqb k k') eqn:E; [discriminate|].
  apply str_eqb_neq in E. intros H [H1|H1]; [congruence | now apply IH].
Qed.

Lemma push_at_keys (k : jsstring) (m : MessageSnippet) (g : Record_) :
  map fst (push_at k m g) = map fst g.
Proof.
  induction g as [|[k' items] g IH]; simpl; [reflexivity|].
  destruct (str_eqb k k'); simpl; [reflexivity | now rewrite IH].
Qed.

Lemma push_at_contents (k : jsstring) (m : MessageSnippet) (g : Record_) items :
  own k g = Some items ->
  Permutation (concat (map snd (push_at k m g))) (concat (map snd g) ++ [m]).
Proof.
  induction g as [|[k' its] g IH]; simpl; [discriminate|].
  destruct (str_eqb k k') eqn:E; simpl; intros H.
  - rewrite <- !app_assoc. apply Permutation_app_head, Permutation_app_comm.
  - rewrite <- app_assoc. apply Permutation_app_head. now apply IH.
Qed.

Lemma push_at_keyed (m : MessageSnippet) (g : Record_) :
  keyed g -> keyed (push_at (category m) m g).
Proof.
  unfold keyed. induction g as [|[k' its] g IH]; simpl; intros H; [constructor|].
  inversion H as [|? ? H1 H2]; subst. simpl in H1.
  destruct (str_eqb (category m) k') eqn:E.
  - apply str_eqb_eq in E. constructor; [|assumption]. simpl.
    apply Forall_app. split; [assumption | now repeat constructor].
  - constructor; [assumption | now apply IH].
Qed.

Lemma group_step_safe (g : Record_) (m : MessageSnippet) :
  inherited (category m) = false ->
  NoDup (map fst g) -> keyed g ->
  exists g', group_step g m = Some g'
    /\ NoDup (map fst g') /\ keyed g'
    /\ Permutation (concat (map snd g')) (concat (map snd g) ++ [m]).
Proof.
  intros Hsafe Hnd Hk. unfold group_step. destruct (own (category m) g) eqn:O.
  - eexists. split; [reflexivity|]. repeat split.
    + now rewrite push_at_keys.
    + now apply push_at_keyed.
    + eapply push_at_contents; eassumption.
  - rewrite Hsafe. eexists. split; [reflexivity|]. repeat split.
    + rewrite map_app. simpl. apply NoDup_app; [assumption | repeat constructor; simpl; tauto |].
      intros k Hin [<-|[]]. now apply own_None_keys in O.
    + apply Forall_app. split; [assumption|]. now repeat constructor.
    + rewrite map_app, concat_app. simpl. reflexivity.
Qed.

Lemma forEach_group_safe (ms : list MessageSnippet) : forall g : Record_,
  (forall m, In m ms -> inherited (category m) = false) ->
  NoDup (map fst g) -> keyed g ->
  exists g', forEach_group g ms = Some g'
    /\ NoDup (map fst g') /\ keyed g'
    /\ Permutation (concat (map snd g')) (concat (map snd g) ++ ms).
Proof.
  induction ms as [|m ms IH]; intros g Hsafe Hnd Hk; simpl.
  - exists g. rewrite app_nil_r. auto.
  - destruct (group_step_safe g m) as (g1 & -> & Hnd1 & Hk1 & Hp1); auto.
    { apply Hsafe. now left. }
    destruct (IH g1) as (g2 & -> & Hnd2 & Hk2 & Hp2); auto.
    { intros x Hx. apply Hsafe. now right. }
    exists g2. repeat split; auto.
    rewrite Hp2. rewrite Hp1. rewrite <- app_assoc. reflexivity.
Qed.

(** Where no category is a property name inherited from [Object.prototype],
    grouping succeeds and partitions its input: the keys are pairwise
    distinct, every snippet sits under its own category, and the groups
    together hold the input, each occurrence once. *)
Lemma groupedMessages_partition (filtered : list MessageSnippet) :
  (forall m, In m filtered -> inherited (category m) = false) ->
  exists g, groupedMessages filtered = Some g
    /\ NoDup (map fst g)
    /\ (forall k items m, In (k, items) g -> In m items -> category m = k)
    /\ Permutation (concat (map snd g)) filtered.
Proof.
  intros Hsafe. unfold groupedMessages.
  destruct (forEach_group_safe filtered []) as (g & Hg & Hnd & Hk & Hp); auto.
  - constructor.
  - constructor.
  - exists g. repeat split; auto.
    intros k items m Hin Hm. unfold keyed in Hk. rewrite Forall_forall in Hk.
    specialize (Hk _ Hin). simpl in Hk. rewrite Forall_forall in Hk. now apply Hk.
Qed.

Lemma own_Some_keys (k : jsstring) (g : Record_) items :
  own k g = Some items -> In k (map fst g).
Proof.
  induction g as [|[k' its] g IH]; simpl; [discriminate|].
  destruct (str_eqb k k') eqn:E.
  - apply str_eqb_eq in E. now left.
  - intros H. right. now apply IH.
Qed.

Lemma forEach_group_inherited (ms : list MessageSnippet) : forall g : Record_,
  (forall k, In k (map fst g) -> inherited k = false) ->
  (exists m, In m ms /\ inherited (category m) = true) ->
  forEach_group g ms = None.
Proof.
  induction ms as [|m ms IH]; intros g Hg [x [Hx Hi]]; [destruct Hx|].
  simpl. unfold group_step. destruct (own (category m) g) as [items|] eqn:O.
  - assert (Hm : inherited (category m) = false).
    { apply Hg. eapply own_Some_keys; eassumption. }
    destruct Hx as [->|Hx]; [congruence|].
    apply IH; [|now exists x]. now rewrite push_at_keys.
  - destruct (inherited (category m)) eqn:Hm; [reflexivity|].
    destruct Hx as [->|Hx]; [congruence|].
    apply IH; [|now exists x].
    intros k Hk. rewrite map_app in Hk. apply in_app_or in Hk as [Hk|[<-|[]]]; auto.
Qed.

(** Grouping raises the [TypeError] exactly when some snippet has a
    category that names a property inherited from [Object.prototype]. *)
Lemma groupedMessages_TypeError (filtered : list MessageSnippet) :
  groupedMessages filtered = None
  <-> exists m, In m filtered /\ inherited (category m) = true.
Proof.
  split.
  - intros H.
    destruct (existsb (fun m => inherited (category m)) filtered) eqn:E.
    + apply existsb_exists in E. exact E.
    + destruct (groupedMessages_partition filtered) as (g & Hg & _).
      * intros m Hm. destruct (inherited (category m)) eqn:I; [|reflexivity].
        assert (X : existsb (fun m => inherited (category m)) filtered = true).
        { apply existsb_exists. now exists m. }
        congruence.
      * congruence.
  - intros H. apply forEach_group_inherited; [intros k []|exact H].
Qed.

(** C6.  The collection holding one snippet of category [constructor],
    filtered with the empty term, keeps that snippet; grouping it then
    raises a [TypeError] and yields no groups, so the snippet appears in no
    group at all. *)
Theorem groupedMessages_inherited_key :
  let m := mkSnippet (lit "1") (lit "constructor") (lit "Greeting") (lit "Hello!") in
  filteredMessages ascii_toLowerCase [m] [] = [m]
  /\ groupedMessages (filteredMessages ascii_toLowerCase [m] []) = None.
Proof. split; reflexivity. Qed.

(** ** Display order *)

Lemma str_ltb_irrefl (a : jsstring) : str_ltb a a = false.
Proof.
  induction a as [|x a IH]; [reflexivity|]. simpl.
  now rewrite N.ltb_irrefl, N.eqb_refl, IH.
Qed.

Lemma str_ltb_total (a b : jsstring) :
  a <> b -> str_ltb a b = true \/ str_ltb b a = true.
Proof.
  revert b; induction a as [|x a IH]; intros [|y b] H; simpl.
  - congruence.
  - now left.
  - now right.
  - destruct (N.lt_trichotomy x y) as [L|[->|L]].
    + left. apply N.ltb_lt in L. now rewrite L.
    + rewrite N.ltb_irrefl, N.eqb_refl. simpl. apply IH. congruence.
    + right. apply N.ltb_lt in L. now rewrite L.
Qed.

(** [a <= b], that is, not [b < a], is transitive. *)
Lemma str_ltb_false_trans (a b c : jsstring) :
  str_ltb b a = false -> str_ltb c b = false -> str_ltb c a = false.
Proof.
  revert b c; induction a as [|x a IH]; intros [|y b] [|z c]; simpl;
    try reflexivity; try discriminate.
  rewrite !orb_false_iff, !andb_false_iff, !N.ltb_ge, !N.eqb_neq.
  intros [Hyx Hba] [Hzy Hcb]. split; [lia|].
  destruct (N.eq_dec z x) as [->|Hzx]; [|now left]. right.
  assert (y = x) by lia. subst y.
  destruct Hba as [?|Hba]; [congruence|]. destruct Hcb as [?|Hcb]; [congruence|].
  now apply IH with (b := b).
Qed.

Lemma str_ltb_asym (a b : jsstring) : str_ltb a b = true -> str_ltb b a = false.
Proof.
  revert b; induction a as [|x a IH]; intros [|y b]; simpl; try reflexivity;
    try discriminate.
  rewrite orb_true_iff, andb_true_iff, orb_false_iff, andb_false_iff.
  rewrite N.ltb_lt, N.ltb_ge, !N.eqb_eq, N.eqb_neq.
  intros [L|[-> L]].
  - split; [lia|]. left. lia.
  - split; [lia|]. right. now apply IH.
Qed.

(** Appending suffixes does not change the order of two strings neither
    of which is a prefix of the other. *)
Lemma str_ltb_app (a b x y : jsstring) :
  ~ prefix_related a b -> str_ltb (a ++ x) (b ++ y) = str_ltb a b.
Proof.
  revert b; induction a as [|u a IH]; intros b H.
  - exfalso. apply H. left. now exists b.
  - destruct b as [|v b].
    + exfalso. apply H. right. now exists (u :: a).
    + simpl. destruct (N.eqb u v) eqn:E; [|reflexivity].
      apply N.eqb_eq in E. subst v. rewrite IH; [reflexivity|].
      intros [[z Hz]|[z Hz]]; apply H; [left|right]; exists z; simpl; congruence.
Qed.

Section Insertion.
Context {A : Type} (ltb : A -> A -> bool).
Let le (a b : A) : Prop := ltb b a = false.
Hypothesis ltb_asym : forall a b, ltb a b = true -> ltb b a = false.
Hypothesis le_trans : forall a b c, le a b -> le b c -> le a c.

Lemma insert_by_perm (x : A) (l : list A) : Permutation (insert_by ltb x l) (x :: l).
Proof.
  induction l as [|y l IH]; simpl; [reflexivity|].
  destruct (ltb x y); [reflexivity|].
  rewrite IH. apply perm_swap.
Qed.

Lemma insert_by_sorted (x : A) (l : list A) :
  StronglySorted le l -> StronglySorted le (insert_by ltb x l).
Proof.
  induction 1 as [|y l Hs IH Hy]; simpl.
  - repeat constructor.
  - destruct (ltb x y) eqn:E.
    + constructor; [now constructor|]. constructor.
      * now apply ltb_asym.
      * eapply Forall_impl; [|exact Hy]. intros z Hz.
        apply le_trans with (b := y); [now apply ltb_asym | exact Hz].
    + constructor; [exact IH|].
      apply (Permutation_Forall (Permutation_sym (insert_by_perm x l))).
      constructor; [exact E | exact Hy].
Qed.

Lemma fold_insert_sorted (l acc : list A) :
  StronglySorted le acc ->
  StronglySorted le (fold_left (fun acc x => insert_by ltb x acc) l acc).
Proof.
  revert acc; induction l as [|x l IH]; intros acc H; simpl; [exact H|].
  apply IH. now apply insert_by_sorted.
Qed.

Lemma fold_insert_perm (l acc : list A) :
  Permutation (fold_left (fun acc x => insert_by ltb x acc) l acc) (acc ++ l).
Proof.
  revert acc; induction l as [|x l IH]; intros acc; simpl.
  - now rewrite app_nil_r.
  - rewrite IH, insert_by_perm. apply Permutation_middle.
Qed.

Lemma sort_by_sorted (l : list A) : StronglySorted le (sort_by ltb l).
Proof. apply fold_insert_sorted. constructor. Qed.

Lemma sort_by_perm (l : list A) : Permutation (sort_by ltb l) l.
Proof. apply (fold_insert_perm l []). Qed.
End Insertion.

Lemma StronglySorted_nth {A} (R : A -> A -> Prop) (l : list A) :
  StronglySorted R l ->
  forall i j a b, i < j -> nth_error l i = Some a -> nth_error l j = Some b -> R a b.
Proof.
  induction 1 as [|x l Hs IH Hx]; intros i j a b Hij Hi Hj.
  - destruct i; discriminate.
  - destruct j as [|j]; [lia|]. simpl in Hj. destruct i as [|i].
    + injection Hi as <-. rewrite Forall_forall in Hx. apply Hx.
      eapply nth_error_In; eassumption.
    + simpl in Hi. apply (IH i j); [lia | assumption | assumption].
Qed.

Lemma String_entry_app (e : jsstring * list MessageSnippet) :
  exists suffix, String_entry e = fst e ++ suffix.
Proof. unfold String_entry. cbn [join]. eexists. reflexivity. Qed.

(** What the display order does guarantee: of two groups whose categories
    are not prefix-related, the one with the lexicographically smaller
    category is shown first. *)
Lemma displayed_groups_order (filtered : list MessageSnippet)
    (shown : list (jsstring * list MessageSnippet)) :
  displayed_groups filtered = Some shown ->
  forall i j e1 e2, i < j ->
    nth_error shown i = Some e1 -> nth_error shown j = Some e2 ->
    ~ prefix_related (fst e1) (fst e2) ->
    str_ltb (fst e1) (fst e2) = true.
Proof.
  unfold displayed_groups. destruct (groupedMessages filtered) as [g|]; [|discriminate].
  intros H; injection H as <-. intros i j e1 e2 Hij H1 H2 Hp.
  assert (S : StronglySorted (fun a b => default_ltb b a = false)
                (Array_sort (Object_entries g))).
  { apply sort_by_sorted.
    - intros a b. apply str_ltb_asym.
    - intros a b c. unfold default_ltb. apply str_ltb_false_trans. }
  pose proof (StronglySorted_nth _ _ S i j e1 e2 Hij H1 H2) as Hle.
  unfold default_ltb in Hle.
  destruct (String_entry_app e1) as [x1 X1]. destruct (String_entry_app e2) as [x2 X2].
  rewrite X1, X2, str_ltb_app in Hle.
  2:{ intros [[z Hz]|[z Hz]]; apply Hp; [right|left]; now exists z. }
  destruct (str_ltb_total (fst e1) (fst e2)) as [L|L]; [|exact L|congruence].
  intros E. apply Hp. left. exists []. now rewrite app_nil_r.
Qed.

(** C5.  Two snippets of categories [Vendas] and [Vendas Online]: the first
    category is the lexicographically smaller one (a proper prefix), yet
    the list view shows the group [Vendas Online] first, because the
    entries are compared through their string conversions
    [Vendas,[object Object]] and [Vendas Online,[object Object]], where the
    comma (44) ranks after the space (32). *)
Theorem displayed_groups_prefix_order :
  let m1 := mkSnippet (lit "1") (lit "Vendas") (lit "Saudar") (lit "Bom dia") in
  let m2 := mkSnippet (lit "2") (lit "Vendas Online") (lit "Frete") (lit "Gratis") in
  str_ltb (category m1) (category m2) = true
  /\ displayed_groups (filteredMessages ascii_toLowerCase [m1; m2] [])
     = Some [(category m2, [m2]); (category m1, [m1])].
Proof. split; reflexivity. Qed.

(** ** Tabular import *)

Lemma trimStart_white (s : jsstring) :
  forallb is_white_space s = true -> trimStart s = [].
Proof.
  induction s as [|u s IH]; simpl; [reflexivity|].
  intros H. apply andb_true_iff in H as [-> H]. now apply IH.
Qed.

Lemma trim_white (s : jsstring) :
  forallb is_white_space s = true -> trim s = [].
Proof. intros H. unfold trim. now rewrite trimStart_white. Qed.

Lemma import_field_eq Number_toString (c : cell) (fallback : jsstring) :
  trim fallback = fallback ->
  trim (String_ Number_toString (or_else c fallback))
  = field_of_cell Number_toString c fallback.
Proof.
  intros H. unfold or_else, field_of_cell. now destruct (truthy c).
Qed.

Lemma map_rows_length Number_toString randomUUID
    (rows : list (list cell)) : forall k,
  List.length (map_rows Number_toString randomUUID k rows) = List.length rows.
Proof. induction rows as [|r rows IH]; intros k; simpl; [|rewrite IH]; reflexivity. Qed.

Lemma map_rows_nth Number_toString randomUUID
    (rows : list (list cell)) : forall k i,
  nth_error (map_rows Number_toString randomUUID k rows) i
  = option_map (snippet_of_row Number_toString randomUUID (k + i)) (nth_error rows i).
Proof.
  induction rows as [|r rows IH]; intros k [|i]; simpl; try reflexivity.
  - now rewrite Nat.add_0_r.
  - rewrite IH. now rewrite Nat.add_succ_r.
Qed.

Lemma handleFileUpload_messages Number_toString randomUUID data (w : World) :
  messages (handleFileUpload Number_toString randomUUID data w)
  = messages w
    ++ map_rows Number_toString randomUUID (uuid_calls w) (retained_rows data).
Proof.
  unfold handleFileUpload.
  destruct (map_rows Number_toString randomUUID (uuid_calls w) (retained_rows data)); simpl.
  - now rewrite app_nil_r.
  - reflexivity.
Qed.

(** C4, as the code has it.  Import drops the first row and every row with
    fewer than three cells, keeping the others in order; the collection
    grows at its end by one snippet per retained row, the [i]-th of them
    carrying the next identifier drawn from the generator, and for category,
    title and content the trimmed string of cells 0, 1 and 2, a falsy cell
    (missing, [null], empty string, a zero, NaN, [false]) giving
    ['Sem Categoria'], ['Sem Título'] and the empty string.  For a header followed by
    [Sales, Greeting, Hello!] and by three empty strings the two snippets
    appended are (Sales, Greeting, Hello!) and (Sem Categoria, Sem Título,
    empty), in that order. *)
Theorem handleFileUpload_appends Number_toString randomUUID
    (data : list (list cell)) (w : World) :
  subsequence (retained_rows data) (skipn 1 data)
  /\ (forall row, In row (retained_rows data) <->
                  In row (skipn 1 data) /\ 3 <= List.length row)
  /\ (exists added,
        messages (handleFileUpload Number_toString randomUUID data w) = messages w ++ added
        /\ List.length added = List.length (retained_rows data)
        /\ forall i row, nth_error (retained_rows data) i = Some row ->
             nth_error added i
             = Some {| id := randomUUID (uuid_calls w + i);
                       category := field_of_cell Number_toString (at_index row 0) Sem_Categoria;
                       title := field_of_cell Number_toString (at_index row 1) Sem_Titulo;
                       content := field_of_cell Number_toString (at_index row 2) [] |})
  /\ (forall header,
        messages (handleFileUpload Number_toString randomUUID
                    [ header;
                      [c_string (lit "Sales"); c_string (lit "Greeting");
                       c_string (lit "Hello!")];
                      [c_string []; c_string []; c_string []] ] w)
        = messages w
          ++ [ mkSnippet (randomUUID (uuid_calls w)) (lit "Sales")
                 (lit "Greeting") (lit "Hello!");
               mkSnippet (randomUUID (S (uuid_calls w))) Sem_Categoria
                 Sem_Titulo [] ]).
Proof.
  split; [apply filter_subsequence|]. split.
  { intros row. unfold retained_rows. rewrite filter_In, Nat.leb_le. tauto. }
  split.
  - exists (map_rows Number_toString randomUUID (uuid_calls w) (retained_rows data)).
    split; [apply handleFileUpload_messages|]. split; [apply map_rows_length|].
    intros i row Hrow. rewrite map_rows_nth, Hrow. simpl. unfold snippet_of_row.
    now rewrite !import_field_eq.
  - intros header. rewrite handleFileUpload_messages. reflexivity.
Qed.

(** C4, as stated, fails on a number cell: the row [0, Greeting, Hello!]
    has a first cell that is neither empty nor missing and whose trimmed
    string is [0], and the snippet imported from it has category
    ['Sem Categoria']. *)
Lemma handleFileUpload_zero_cell :
  let row := [c_number 0; c_string (lit "Greeting"); c_string (lit "Hello!")] in
  let w := handleFileUpload example_Number_toString example_uuid
             [[c_string (lit "Category")]; row] (initial None) in
  map category (messages w) = [Sem_Categoria]
  /\ field_as_specified example_Number_toString (at_index row 0) Sem_Categoria
     = lit "0"
  /\ Sem_Categoria <> lit "0".
Proof. repeat split. discriminate. Qed.

(** C10.  A retained row whose category cell (title cell) is a non-empty
    string of white space only gives a snippet whose category (title) is
    the empty string, not the fallback label. *)
Theorem handleFileUpload_blank_cells Number_toString randomUUID
    (data : list (list cell)) (w : World) (i : nat) (row : list cell) (s : jsstring) :
  nth_error (retained_rows data) i = Some row ->
  s <> [] ->
  forallb is_white_space s = true ->
  3 <= List.length row
  /\ exists m,
       nth_error (messages (handleFileUpload Number_toString randomUUID data w))
                 (List.length (messages w) + i) = Some m
       /\ (at_index row 0 = c_string s -> category m = [] /\ category m <> Sem_Categoria)
       /\ (at_index row 1 = c_string s -> title m = [] /\ title m <> Sem_Titulo).
Proof.
  intros Hrow Hs Hw. split.
  { apply nth_error_In in Hrow. unfold retained_rows in Hrow.
    apply filter_In in Hrow as [_ H]. now apply Nat.leb_le. }
  exists (snippet_of_row Number_toString randomUUID (uuid_calls w + i) row). split.
  { rewrite handleFileUpload_messages, nth_error_app2 by lia.
    replace (_ + i - _) with i by lia. now rewrite map_rows_nth, Hrow. }
  assert (Ht : forall fb, trim (String_ Number_toString (or_else (c_string s) fb)) = []).
  { intros fb. unfold or_else. simpl. destruct s; [congruence|]. now apply trim_white. }
  split; intros E; simpl; rewrite E, Ht; split; (reflexivity || discriminate).
Qed.

Lemma handleFileUpload_blank_cells_witness :
  exists m,
    nth_error
      (messages (handleFileUpload example_Number_toString example_uuid
                   [ [c_string (lit "Category"); c_string (lit "Title")];
                     [c_string (lit " "); c_string (lit " "); c_string (lit "Hello!")] ]
                   (initial None))) 0 = Some m
    /\ category m = [] /\ title m = [].
Proof.
  destruct (handleFileUpload_blank_cells example_Number_toString example_uuid
              [ [c_string (lit "Category"); c_string (lit "Title")];
                [c_string (lit " "); c_string (lit " "); c_string (lit "Hello!")] ]
              (initial None) 0
              [c_string (lit " "); c_string (lit " "); c_string (lit "Hello!")]
              (lit " ") eq_refl ltac:(discriminate) eq_refl)
    as [_ [m [Hm [Hc Ht]]]].
  exists m. split; [exact Hm|]. split; [apply Hc | apply Ht]; reflexivity.
Defined.

(** ** Update by id *)

Lemma replace_by_id_nth (snippet : MessageSnippet) (prev : list MessageSnippet) (i : nat) :
  nth_error (replace_by_id snippet prev) i
  = option_map (fun m => if str_eqb (id m) (id snippet) then snippet else m)
               (nth_error prev i).
Proof. unfold replace_by_id. apply nth_error_map. Qed.

Lemma replace_by_id_absent (snippet : MessageSnippet) (prev : list MessageSnippet) :
  (forall m, In m prev -> id m <> id snippet) -> replace_by_id snippet prev = prev.
Proof.
  induction prev as [|m prev IH]; intros H; simpl; [reflexivity|].
  assert (E : str_eqb (id m) (id snippet) = false).
  { apply str_eqb_neq, H. now left. }
  rewrite E. f_equal. apply IH. intros x Hx. apply H. now right.
Qed.

Lemma replace_by_id_ids (snippet : MessageSnippet) (prev : list MessageSnippet) :
  map id (replace_by_id snippet prev) = map id prev.
Proof.
  induction prev as [|m prev IH]; simpl; [reflexivity|]. rewrite IH. f_equal.
  destruct (str_eqb (id m) (id snippet)) eqn:E; [|reflexivity].
  symmetry. now apply str_eqb_eq.
Qed.

Lemma addOrUpdateSnippet_edit_messages randomUUID (form : FormData) (w : World) :
  viewMode w = edit_mode ->
  messages (addOrUpdateSnippet randomUUID form w)
  = replace_by_id (form_snippet randomUUID form w) (messages w).
Proof. intros H. unfold addOrUpdateSnippet. now rewrite H. Qed.

(** C7.  Submitting the form in edit mode keeps the length of the
    collection and the identifier at every position; a record whose id
    differs from the submitted snippet's stays as it was, at its position; a
    record with that id becomes the submitted snippet; and when no record
    has that id the collection is unchanged.  The id submitted is the id of
    the record being edited (whenever that id is not the empty string). *)
Theorem addOrUpdateSnippet_edit randomUUID (form : FormData) (w : World) :
  viewMode w = edit_mode ->
  let snippet := form_snippet randomUUID form w in
  let after := messages (addOrUpdateSnippet randomUUID form w) in
  List.length after = List.length (messages w)
  /\ map id after = map id (messages w)
  /\ (forall i m, nth_error (messages w) i = Some m -> id m <> id snippet ->
        nth_error after i = Some m)
  /\ (forall i m, nth_error (messages w) i = Some m -> id m = id snippet ->
        nth_error after i = Some snippet)
  /\ ((forall m, In m (messages w) -> id m <> id snippet) -> after = messages w)
  /\ (forall e, editingSnippet w = Some e -> id e <> [] -> id snippet = id e).
Proof.
  intros Hmode. cbv zeta.
  rewrite (addOrUpdateSnippet_edit_messages _ _ _ Hmode).
  set (snippet := form_snippet randomUUID form w).
  split. { unfold replace_by_id. apply length_map. }
  split. { apply replace_by_id_ids. }
  split.
  { intros i m Hi Hne. rewrite replace_by_id_nth, Hi. cbn [option_map].
    apply str_eqb_neq in Hne. now rewrite Hne. }
  split.
  { intros i m Hi He. rewrite replace_by_id_nth, Hi. cbn [option_map].
    apply str_eqb_eq in He. now rewrite He. }
  split. { apply replace_by_id_absent. }
  intros e He Hid. unfold snippet, form_snippet, snippet_id. simpl. rewrite He.
  destruct (id e); [congruence | reflexivity].
Qed.

Lemma addOrUpdateSnippet_edit_witness :
  let a := mkSnippet (lit "a") (lit "Sales") (lit "Greeting") (lit "Hello!") in
  let b := mkSnippet (lit "b") (lit "Sales") (lit "Closing") (lit "Bye") in
  let w := start_edit b (set_messages [a; b] (initial None)) in
  viewMode w = edit_mode
  /\ messages (addOrUpdateSnippet example_uuid
                 (mkForm (lit "Support") (lit "Closing") (lit "Goodbye")) w)
     = [a; mkSnippet (lit "b") (lit "Support") (lit "Closing") (lit "Goodbye")].
Proof.
  split; [reflexivity|].
  pose proof (addOrUpdateSnippet_edit example_uuid
                (mkForm (lit "Support") (lit "Closing") (lit "Goodbye"))
                (start_edit (mkSnippet (lit "b") (lit "Sales") (lit "Closing") (lit "Bye"))
                   (set_messages
                      [mkSnippet (lit "a") (lit "Sales") (lit "Greeting") (lit "Hello!");
                       mkSnippet (lit "b") (lit "Sales") (lit "Closing") (lit "Bye")]
                      (initial None)))
                eq_refl) as H.
  reflexivity.
Defined.

(** ** Copy feedback *)

Lemma elapse_due (dt : N) (w : World) (d : N) :
  In d (timers w) -> (d <= now w + dt)%N -> copyFeedback (elapse dt w) = None.
Proof.
  intros Hin Hd. unfold elapse.
  destruct (filter (fun d => N.leb d (now w + dt)) (timers w)) eqn:F.
  - assert (In d []) as []. rewrite <- F. apply filter_In. split; [assumption|].
    now apply N.leb_le.
  - reflexivity.
Qed.

Lemma elapse_idle (dt : N) (w : World) :
  (forall d, In d (timers w) -> (now w + dt < d)%N) ->
  copyFeedback (elapse dt w) = copyFeedback w.
Proof.
  intros H. unfold elapse.
  destruct (filter (fun d => N.leb d (now w + dt)) (timers w)) as [|d l] eqn:F.
  - reflexivity.
  - assert (Hd : In d (filter (fun d => N.leb d (now w + dt)) (timers w))).
    { rewrite F. now left. }
    apply filter_In in Hd as [Hin Hle]. apply N.leb_le in Hle.
    specialize (H d Hin). lia.
Qed.

(** C9, as the code has it.  A successful copy of an item sets the
    acknowledgment to that item's id, whatever it held (the last writer
    wins), and registers a timer one second ahead.  With no further action
    the acknowledgment is clear once a second has passed.  It stays set for
    less than a second only as long as no timer of an earlier copy comes
    due: such a timer, still pending, clears the acknowledgment of the
    later item when it fires. *)
Theorem handleCopy_feedback (w : World) (x : jsstring) :
  let w1 := handleCopy true x w in
  copyFeedback w1 = Some x
  /\ timers w1 = timers w ++ [(now w + 1000)%N]
  /\ (forall dt, (1000 <= dt)%N -> copyFeedback (elapse dt w1) = None)
  /\ (forall dt, (dt < 1000)%N ->
        (forall d, In d (timers w) -> (now w + dt < d)%N) ->
        copyFeedback (elapse dt w1) = Some x)
  /\ (forall dt d, In d (timers w) -> (d <= now w + dt)%N ->
        copyFeedback (elapse dt w1) = None).
Proof.
  cbv zeta. split; [reflexivity|]. split; [reflexivity|]. split.
  { intros dt Hdt. apply elapse_due with (d := (now w + 1000)%N); simpl.
    - apply in_or_app. right. now left.
    - lia. }
  split.
  { intros dt Hdt Hidle. rewrite elapse_idle; [reflexivity|]. simpl.
    intros d Hd. apply in_app_or in Hd as [Hd|[<-|[]]]; [now apply Hidle | lia]. }
  intros dt d Hin Hd. apply elapse_due with (d := d); simpl; [|assumption].
  apply in_or_app. now left.
Qed.

(** C9, as stated, fails when two copies are half a second apart: the
    second item's acknowledgment is set at 500 ms, its own timer is due at
    1500 ms, and at 1000 ms the first copy's timer has already cleared it. *)
Lemma handleCopy_cleared_early :
  let at_500 := run_copy [copy_settled true (lit "x"); time_passes 500;
                          copy_settled true (lit "y")] (initial None) in
  let at_1000 := run_copy [time_passes 500] at_500 in
  copyFeedback at_500 = Some (lit "y")
  /\ now at_500 = 500%N
  /\ now at_1000 = 1000%N
  /\ copyFeedback at_1000 = None
  /\ timers at_1000 = [1500%N].
Proof. repeat split. Qed.

(** ** JSON text: what [JSON.parse] reads back from [JSON.stringify] *)

Lemma hex_digit_value (d : N) : (d < 16)%N -> hex_value (hex_digit d) = Some d.
Proof.
  intros H. unfold hex_digit, hex_value.
  destruct (N.ltb_spec d 10).
  - replace (N.leb 48 (48 + d) && N.leb (48 + d) 57) with true.
    + f_equal. lia.
    + symmetry. apply andb_true_iff. split; apply N.leb_le; lia.
  - replace (N.leb 48 (87 + d) && N.leb (87 + d) 57) with false.
    + replace (N.leb 97 (87 + d) && N.leb (87 + d) 102) with true.
      * f_equal. lia.
      * symmetry. apply andb_true_iff. split; apply N.leb_le; lia.
    + symmetry. apply andb_false_iff. right. apply N.leb_gt. lia.
Qed.

Lemma hex4_unicode_escape (u : code_unit) :
  (u < 65536)%N ->
  hex4 (hex_digit ((u / 4096) mod 16)) (hex_digit ((u / 256) mod 16))
       (hex_digit ((u / 16) mod 16)) (hex_digit (u mod 16)) = Some u.
Proof.
  intros H. unfold hex4.
  rewrite !hex_digit_value by (apply N.mod_upper_bound; discriminate).
  f_equal.
  replace (u / 4096)%N with (u / 16 / 16 / 16)%N
    by (rewrite !N.Div0.div_div; reflexivity).
  replace (u / 256)%N with (u / 16 / 16)%N
    by (rewrite !N.Div0.div_div; reflexivity).
  pose proof (N.div_mod u 16 ltac:(discriminate)) as D0.
  pose proof (N.div_mod (u / 16) 16 ltac:(discriminate)) as D1.
  pose proof (N.div_mod (u / 16 / 16) 16 ltac:(discriminate)) as D2.
  pose proof (N.div_mod (u / 16 / 16 / 16) 16 ltac:(discriminate)) as D3.
  assert (E : (u / 16 / 16 / 16 / 16 = 0)%N).
  { rewrite !N.Div0.div_div. apply N.div_small. exact H. }
  rewrite E in D3. lia.
Qed.

(** Unfolding equations of [parse_chars]. *)

Lemma parse_chars_plain (u : code_unit) (s : jsstring) :
  N.eqb u 34 = false -> N.eqb u 92 = false -> N.ltb u 32 = false ->
  parse_chars (u :: s) = cons_ u (parse_chars s).
Proof. intros H1 H2 H3. simpl. now rewrite H1, H2, H3. Qed.

Lemma parse_chars_unicode (a b c d v : code_unit) (s : jsstring) :
  hex4 a b c d = Some v ->
  parse_chars (92 :: 117 :: a :: b :: c :: d :: s)%N = cons_ v (parse_chars s).
Proof. intros H. simpl. now rewrite H. Qed.

Lemma parse_chars_escape (u : code_unit) (s : jsstring) :
  (u < 65536)%N ->
  parse_chars (unicode_escape u ++ s) = cons_ u (parse_chars s).
Proof.
  intros H. unfold unicode_escape.
  change (parse_chars
            (92 :: 117 :: hex_digit ((u / 4096) mod 16)
               :: hex_digit ((u / 256) mod 16) :: hex_digit ((u / 16) mod 16)
               :: hex_digit (u mod 16) :: s)%N = cons_ u (parse_chars s)).
  apply parse_chars_unicode. now apply hex4_unicode_escape.
Qed.

Lemma surrogate_plain (u : code_unit) :
  is_leading_surrogate u = true \/ is_trailing_surrogate u = true ->
  N.eqb u 34 = false /\ N.eqb u 92 = false /\ N.ltb u 32 = false
  /\ (u < 65536)%N.
Proof.
  unfold is_leading_surrogate, is_trailing_surrogate.
  rewrite !andb_true_iff, !N.leb_le, !N.eqb_neq, N.ltb_ge. lia.
Qed.

(** The string parser inverts the body of [QuoteJSONString]. *)
Lemma parse_chars_quote_units (n : nat) : forall (s rest : jsstring),
  List.length s <= n ->
  parse_chars (quote_units s ++ 34%N :: rest) = Some (s, rest).
Proof.
  induction n as [|n IH]; intros s rest Hlen.
  - destruct s; [reflexivity | simpl in Hlen; lia].
  - destruct s as [|u s]; [reflexivity|].
    simpl in Hlen. assert (Hs : List.length s <= n) by lia.
    cbn [quote_units].
    destruct (N.eqb u 8) eqn:E8.
    { apply N.eqb_eq in E8. subst. cbn. now rewrite IH. }
    destruct (N.eqb u 9) eqn:E9.
    { apply N.eqb_eq in E9. subst. cbn. now rewrite IH. }
    destruct (N.eqb u 10) eqn:E10.
    { apply N.eqb_eq in E10. subst. cbn. now rewrite IH. }
    destruct (N.eqb u 12) eqn:E12.
    { apply N.eqb_eq in E12. subst. cbn. now rewrite IH. }
    destruct (N.eqb u 13) eqn:E13.
    { apply N.eqb_eq in E13. subst. cbn. now rewrite IH. }
    destruct (N.eqb u 34) eqn:E34.
    { apply N.eqb_eq in E34. subst. cbn. now rewrite IH. }
    destruct (N.eqb u 92) eqn:E92.
    { apply N.eqb_eq in E92. subst. cbn. now rewrite IH. }
    destruct (N.ltb u 32) eqn:E32.
    { apply N.ltb_lt in E32. rewrite <- app_assoc, parse_chars_escape by lia.
      now rewrite IH. }
    destruct (is_leading_surrogate u) eqn:EL.
    { destruct (surrogate_plain u (or_introl EL)) as (_ & _ & _ & Hu).
      destruct s as [|v s].
      - rewrite parse_chars_escape by assumption. reflexivity.
      - destruct (is_trailing_surrogate v) eqn:ET.
        + destruct (surrogate_plain v (or_intror ET)) as (V1 & V2 & V3 & _).
          cbn [app]. rewrite parse_chars_plain by assumption.
          rewrite parse_chars_plain by assumption.
          rewrite IH by (simpl in Hs; lia). reflexivity.
        + rewrite <- app_assoc, parse_chars_escape by assumption.
          now rewrite IH. }
    destruct (is_trailing_surrogate u) eqn:ET.
    { destruct (surrogate_plain u (or_intror ET)) as (_ & _ & _ & Hu).
      rewrite <- app_assoc, parse_chars_escape by assumption. now rewrite IH. }
    cbn [app]. rewrite parse_chars_plain by assumption. now rewrite IH.
Qed.

Lemma parse_chars_quote (s rest : jsstring) :
  parse_chars (quote_units s ++ 34%N :: rest) = Some (s, rest).
Proof. now apply parse_chars_quote_units with (n := List.length s). Qed.

(** ** JSON text: the fuel of [JSON_parse] is enough *)

Ltac parse_case H :=
  repeat match type of H with
         | match ?x with _ => _ end = Some _ =>
             let E := fresh "E" in destruct x eqn:E; try discriminate H
         end.

Lemma skip_ws_length (s : jsstring) : List.length (skip_ws s) <= List.length s.
Proof.
  induction s as [|u s IH]; simpl; [lia|]. destruct (is_json_ws u); simpl; lia.
Qed.

Lemma skip_ws_cons (s : jsstring) (u : code_unit) (rest : jsstring) :
  skip_ws s = u :: rest -> S (List.length rest) <= List.length s.
Proof. intros H. pose proof (skip_ws_length s) as L. rewrite H in L. exact L. Qed.

Lemma cons_length (u : code_unit) (p : option (jsstring * jsstring)) str r :
  cons_ u p = Some (str, r) -> exists str', p = Some (str', r).
Proof.
  unfold cons_. destruct p as [[str' r']|]; [|discriminate].
  intros H. injection H as _ <-. now exists str'.
Qed.

Lemma parse_chars_consumes : consumes parse_chars.
Proof.
  intros s. remember (List.length s) as n eqn:Hn.
  revert s Hn. induction n as [n IH] using lt_wf_ind. intros s Hn str r H.
  destruct s as [|u s1]; [discriminate|]. simpl in H, Hn.
  assert (step : forall v t str', List.length t < n ->
            cons_ v (parse_chars t) = Some (str', r) ->
            List.length r <= List.length t).
  { intros v t str' Ht Hc. apply cons_length in Hc as [str'' Hc].
    eapply (IH (List.length t)); eauto. }
  destruct (N.eqb u 34).
  { injection H as _ <-. simpl. lia. }
  destruct (N.eqb u 92).
  - destruct s1 as [|e s2]; [discriminate|]. simpl in Hn.
    repeat match type of H with
           | (if ?b then _ else _) = _ =>
               destruct b;
               [ apply step in H; simpl; lia | ]
           end.
    destruct (N.eqb e 117); [|discriminate].
    destruct s2 as [|a [|b [|c [|d s3]]]]; try discriminate.
    destruct (hex4 a b c d); [|discriminate].
    simpl in Hn. apply step in H; simpl; lia.
  - destruct (N.ltb u 32); [discriminate|]. apply step in H; simpl; lia.
Qed.

Lemma strip_length (p s r : jsstring) :
  strip p s = Some r -> List.length r <= List.length s.
Proof.
  revert s; induction p as [|a p IH]; intros s H; simpl in H.
  - injection H as <-. lia.
  - destruct s as [|b s]; [discriminate|]. destruct (N.eqb a b); [|discriminate].
    apply IH in H. simpl. lia.
Qed.

Lemma span_digits_length (s : jsstring) :
  List.length (snd (span_digits s)) <= List.length s.
Proof.
  induction s as [|u s IH]; simpl; [lia|].
  destruct (is_digit u); simpl; [|lia].
  destruct (span_digits s). simpl in *. lia.
Qed.

Lemma parse_number_consumes : consumes parse_number.
Proof.
  intros s lexeme r H. unfold parse_number in H.
  assert (Hint : forall t i t', parse_int_part t = Some (i, t') ->
            List.length t' <= List.length t).
  { intros t i t' Hi. unfold parse_int_part in Hi.
    destruct t as [|u t]; [discriminate|].
    destruct (N.eqb u 48); [injection Hi as _ <-; simpl; lia|].
    destruct (is_digit u); [|discriminate].
    pose proof (span_digits_length t) as L. destruct (span_digits t).
    injection Hi as _ <-. simpl in *. lia. }
  assert (Hfrac : forall t f t', parse_frac_part t = Some (f, t') ->
            List.length t' <= List.length t).
  { intros t f t' Hf. unfold parse_frac_part in Hf.
    destruct t as [|u t]; [injection Hf as _ <-; lia|].
    destruct (N.eqb u 46); [|injection Hf as _ <-; lia].
    pose proof (span_digits_length t) as L. destruct (span_digits t) as [[|d ds] t''].
    - discriminate.
    - injection Hf as _ <-. simpl in *. lia. }
  assert (Hexp : forall t e t', parse_exp_part t = Some (e, t') ->
            List.length t' <= List.length t).
  { intros t e t' He. unfold parse_exp_part in He.
    destruct t as [|u t]; [injection He as _ <-; lia|].
    destruct (N.eqb u 101 || N.eqb u 69); [|injection He as _ <-; lia].
    destruct t as [|g t1].
    - simpl in He. discriminate.
    - destruct (N.eqb g 43 || N.eqb g 45).
      + pose proof (span_digits_length t1) as L.
        destruct (span_digits t1) as [[|d ds] t'']; [discriminate|].
        injection He as _ <-. simpl in *. lia.
      + pose proof (span_digits_length (g :: t1)) as L.
        destruct (span_digits (g :: t1)) as [[|d ds] t'']; [discriminate|].
        injection He as _ <-. simpl in *. lia. }
  destruct s as [|u s'].
  - simpl in H. discriminate.
  - destruct (N.eqb u 45).
    + destruct (parse_int_part s') as [[i s1]|] eqn:Ei; [|discriminate].
      destruct (parse_frac_part s1) as [[f s2]|] eqn:Ef; [|discriminate].
      destruct (parse_exp_part s2) as [[e s3]|] eqn:Ee; [|discriminate].
      injection H as _ <-. apply Hint in Ei. apply Hfrac in Ef. apply Hexp in Ee.
      simpl. lia.
    + destruct (parse_int_part (u :: s')) as [[i s1]|] eqn:Ei; [|discriminate].
      destruct (parse_frac_part s1) as [[f s2]|] eqn:Ef; [|discriminate].
      destruct (parse_exp_part s2) as [[e s3]|] eqn:Ee; [|discriminate].
      injection H as _ <-. apply Hint in Ei. apply Hfrac in Ef. apply Hexp in Ee.
      lia.
Qed.

(** The productions consume when the parsers they call do. *)

Lemma value_body_consumes elements members :
  consumes elements -> consumes members -> consumes (value_body elements members).
Proof.
  intros He Hm s v r H. unfold value_body in H.
  destruct (skip_ws s) as [|u rest] eqn:Es; [discriminate|].
  apply skip_ws_cons in Es.
  parse_case H; injection H as _ <-;
    repeat match goal with
           | E : skip_ws _ = _ :: _ |- _ => apply skip_ws_cons in E
           | E : parse_chars _ = Some _ |- _ => apply parse_chars_consumes in E
           | E : parse_number _ = Some _ |- _ => apply parse_number_consumes in E
           | E : strip _ _ = Some _ |- _ => apply strip_length in E
           | E : elements _ = Some _ |- _ => apply He in E
           | E : members _ = Some _ |- _ => apply Hm in E
           end; simpl in *; lia.
Qed.

Lemma elements_body_consumes value elements :
  consumes value -> consumes elements -> consumes (elements_body value elements).
Proof.
  intros Hv He s v r H. unfold elements_body in H.
  parse_case H; injection H as _ <-;
    repeat match goal with
           | E : skip_ws _ = _ :: _ |- _ => apply skip_ws_cons in E
           | E : value _ = Some _ |- _ => apply Hv in E
           | E : elements _ = Some _ |- _ => apply He in E
           end; simpl in *; lia.
Qed.

Lemma members_body_consumes value members :
  consumes value -> consumes members -> consumes (members_body value members).
Proof.
  intros Hv Hm s v r H. unfold members_body in H.
  parse_case H; injection H as _ <-;
    repeat match goal with
           | E : skip_ws _ = _ :: _ |- _ => apply skip_ws_cons in E
           | E : parse_chars _ = Some _ |- _ => apply parse_chars_consumes in E
           | E : value _ = Some _ |- _ => apply Hv in E
           | E : members _ = Some _ |- _ => apply Hm in E
           end; simpl in *; lia.
Qed.

Lemma parse_consumes (n : nat) :
  consumes (parse_value n) /\ consumes (parse_elements n)
  /\ consumes (parse_members n).
Proof.
  induction n as [|n (Hv & He & Hm)].
  - repeat split; intros s x r H; discriminate.
  - repeat split; cbn [parse_value parse_elements parse_members].
    + now apply value_body_consumes.
    + now apply elements_body_consumes.
    + now apply members_body_consumes.
Qed.

(** The productions are monotone in the parsers they call. *)

Ltac parse_mono H :=
  repeat match type of H with
         | match ?x with _ => _ end = Some _ =>
             let E := fresh "E" in
             destruct x eqn:E; try discriminate H;
             try match type of E with
                 | ?p ?t = Some _ =>
                     match goal with
                     | M : extends p _ |- _ => rewrite (M _ _ E)
                     end
                 end
         end.

Lemma value_body_extends e e' m m' :
  extends e e' -> extends m m' -> extends (value_body e m) (value_body e' m').
Proof.
  intros He Hm s x H. unfold value_body in *. parse_mono H; exact H.
Qed.

Lemma elements_body_extends v v' e e' :
  extends v v' -> extends e e' -> extends (elements_body v e) (elements_body v' e').
Proof.
  intros Hv He s x H. unfold elements_body in *. parse_mono H; exact H.
Qed.

Lemma members_body_extends v v' m m' :
  extends v v' -> extends m m' -> extends (members_body v m) (members_body v' m').
Proof.
  intros Hv Hm s x H. unfold members_body in *. parse_mono H; exact H.
Qed.

Lemma parse_extends_S (n : nat) :
  extends (parse_value n) (parse_value (S n))
  /\ extends (parse_elements n) (parse_elements (S n))
  /\ extends (parse_members n) (parse_members (S n)).
Proof.
  induction n as [|n (Hv & He & Hm)].
  - repeat split; intros s x H; discriminate.
  - repeat split.
    + apply (value_body_extends _ _ _ _ He Hm).
    + apply (elements_body_extends _ _ _ _ Hv He).
    + apply (members_body_extends _ _ _ _ Hv Hm).
Qed.

Lemma parse_extends (n m : nat) :
  n <= m ->
  extends (parse_value n) (parse_value m)
  /\ extends (parse_elements n) (parse_elements m)
  /\ extends (parse_members n) (parse_members m).
Proof.
  induction 1 as [|m Hle (Hv & He & Hm)].
  - repeat split; intros s x H; exact H.
  - destruct (parse_extends_S m) as (Sv & Se & Sm).
    repeat split; intros s x H.
    + apply Sv, Hv, H.
    + apply Se, He, H.
    + apply Sm, Hm, H.
Qed.

(** A production that succeeds needs, of the parsers it calls, only the
    calls that consume less than it does. *)

Ltac length_facts :=
  repeat match goal with
         | E : skip_ws ?s = _ :: ?t |- _ =>
             lazymatch goal with
             | _ : S (List.length t) <= List.length s |- _ => fail
             | _ => pose proof (skip_ws_cons _ _ _ E)
             end
         | E : parse_chars ?s = Some (_, ?t) |- _ =>
             lazymatch goal with
             | _ : List.length t <= List.length s |- _ => fail
             | _ => pose proof (parse_chars_consumes _ _ _ E)
             end
         | C : consumes ?p, E : ?p ?s = Some (_, ?t) |- _ =>
             lazymatch goal with
             | _ : List.length t <= List.length s |- _ => fail
             | _ => pose proof (C _ _ _ E)
             end
         end.

Ltac replay :=
  repeat match goal with
         | F : fuel_ok ?p ?p' _ _, E : ?p ?t = Some _
           |- context [?p' ?t] => rewrite (F _ _ _ E) by (simpl in *; lia)
         | E : ?x = _ |- context [match ?x with _ => _ end] => rewrite E
         end.

Lemma value_body_local e e' m m' (s : jsstring) v (r : jsstring) :
  consumes e -> consumes m ->
  value_body e m s = Some (v, r) ->
  fuel_ok e e' s r -> fuel_ok m m' s r ->
  value_body e' m' s = Some (v, r).
Proof.
  intros Ce Cm H Fe Fm. pose proof H as H'. unfold value_body in H'.
  parse_case H'; injection H' as <- <-; length_facts;
    unfold value_body; replay; reflexivity.
Qed.

Lemma elements_body_local v v' e e' (s : jsstring) x (r : jsstring) :
  consumes v -> consumes e ->
  elements_body v e s = Some (x, r) ->
  fuel_ok v v' s r -> fuel_ok e e' s r ->
  elements_body v' e' s = Some (x, r).
Proof.
  intros Cv Ce H Fv Fe. pose proof H as H'. unfold elements_body in H'.
  parse_case H'; injection H' as <- <-; length_facts;
    unfold elements_body; replay; reflexivity.
Qed.

Lemma members_body_local v v' m m' (s : jsstring) x (r : jsstring) :
  consumes v -> consumes m ->
  members_body v m s = Some (x, r) ->
  fuel_ok v v' s r -> fuel_ok m m' s r ->
  members_body v' m' s = Some (x, r).
Proof.
  intros Cv Cm H Fv Fm. pose proof H as H'. unfold members_body in H'.
  parse_case H'; injection H' as <- <-; length_facts;
    unfold members_body; replay; reflexivity.
Qed.

(** A parse that succeeds with [n] units of fuel succeeds with one more
    than the number of characters it consumes. *)
Lemma parse_fuel (n : nat) :
  (forall s v r, parse_value n s = Some (v, r) ->
     parse_value (S (List.length s - List.length r)) s = Some (v, r))
  /\ (forall s vs r, parse_elements n s = Some (vs, r) ->
     parse_elements (S (List.length s - List.length r)) s = Some (vs, r))
  /\ (forall s kvs r, parse_members n s = Some (kvs, r) ->
     parse_members (S (List.length s - List.length r)) s = Some (kvs, r)).
Proof.
  induction n as [|n (Hv & He & Hm)].
  - repeat split; intros s x r H; discriminate.
  - destruct (parse_consumes n) as (Cv & Ce & Cm).
    assert (Fv : forall s r, fuel_ok (parse_value n)
                   (parse_value (List.length s - List.length r)) s r).
    { intros s r t y r' Ht Hlt. apply Hv in Ht.
      refine (proj1 (parse_extends _ _ _) _ _ Ht). lia. }
    assert (Fe : forall s r, fuel_ok (parse_elements n)
                   (parse_elements (List.length s - List.length r)) s r).
    { intros s r t y r' Ht Hlt. apply He in Ht.
      refine (proj1 (proj2 (parse_extends _ _ _)) _ _ Ht). lia. }
    assert (Fm : forall s r, fuel_ok (parse_members n)
                   (parse_members (List.length s - List.length r)) s r).
    { intros s r t y r' Ht Hlt. apply Hm in Ht.
      refine (proj2 (proj2 (parse_extends _ _ _)) _ _ Ht). lia. }
    repeat split; intros s x r H; cbn [parse_value parse_elements parse_members] in *.
    + eapply value_body_local; eauto.
    + eapply elements_body_local; eauto.
    + eapply members_body_local; eauto.
Qed.

(** Fuel beyond the length of the text changes nothing: whatever some
    amount of fuel parses, [JSON_parse] parses. *)
Theorem parse_value_fuel (n : nat) (s : jsstring) (v : json) (r : jsstring) :
  parse_value n s = Some (v, r) ->
  parse_value (S (List.length s)) s = Some (v, r).
Proof.
  intros H. apply (proj1 (parse_fuel n)) in H.
  refine (proj1 (parse_extends _ _ _) _ _ H). lia.
Qed.

(** Unfolding equations of the descent, one per production the printer
    uses. *)

Lemma parse_value_quoted (n : nat) (s rest : jsstring) :
  1 <= n ->
  parse_value n (34%N :: quote_units s ++ 34%N :: rest) = Some (JString s, rest).
Proof.
  intros H. destruct n as [|n]; [lia|].
  cbn [parse_value]. unfold value_body. simpl. now rewrite parse_chars_quote.
Qed.

Lemma parse_members_more (n : nat) (k v tail : jsstring) :
  1 <= n ->
  parse_members (S n)
    (34 :: quote_units k ++ 34 :: 58 :: 34 :: quote_units v ++ 34 :: 44 :: tail)%N
  = match parse_members n tail with
    | Some (kvs, r) => Some ((k, JString v) :: kvs, r)
    | None => None
    end.
Proof.
  intros H. cbn [parse_members]. unfold members_body. simpl.
  rewrite parse_chars_quote. simpl.
  rewrite parse_value_quoted by assumption. reflexivity.
Qed.

Lemma parse_members_last (n : nat) (k v tail : jsstring) :
  1 <= n ->
  parse_members (S n)
    (34 :: quote_units k ++ 34 :: 58 :: 34 :: quote_units v ++ 34 :: 125 :: tail)%N
  = Some ([(k, JString v)], tail).
Proof.
  intros H. cbn [parse_members]. unfold members_body. simpl.
  rewrite parse_chars_quote. simpl.
  rewrite parse_value_quoted by assumption. reflexivity.
Qed.

Lemma parse_value_object (n : nat) (s : jsstring) :
  parse_value (S n) (123 :: 34 :: s)%N
  = match parse_members n (34%N :: s) with
    | Some (kvs, r) => Some (JObject kvs, r)
    | None => None
    end.
Proof. reflexivity. Qed.

(** The text of a snippet, flattened. *)
Lemma stringify_snippet (m : MessageSnippet) (rest : jsstring) :
  JSON_stringify (snippet_to_json m) ++ rest
  = (123 :: 34 :: quote_units (lit "id") ++ 34 :: 58 :: 34
       :: quote_units (id m) ++ 34 :: 44
       :: 34 :: quote_units (lit "category") ++ 34 :: 58 :: 34
       :: quote_units (category m) ++ 34 :: 44
       :: 34 :: quote_units (lit "title") ++ 34 :: 58 :: 34
       :: quote_units (title m) ++ 34 :: 44
       :: 34 :: quote_units (lit "content") ++ 34 :: 58 :: 34
       :: quote_units (content m) ++ 34 :: 125 :: rest)%N.
Proof.
  unfold snippet_to_json. cbn [JSON_stringify map join fst snd].
  unfold QuoteJSONString.
  change (lit ":") with [58%N]. change (lit ",") with [44%N].
  change (lit "{") with [123%N]. change (lit "}") with [125%N].
  rewrite <- !app_assoc. reflexivity.
Qed.

Lemma parse_value_snippet (n : nat) (m : MessageSnippet) (rest : jsstring) :
  parse_value (6 + n) (JSON_stringify (snippet_to_json m) ++ rest)
  = Some (snippet_to_json m, rest).
Proof.
  rewrite stringify_snippet.
  change (6 + n) with (S (S (S (S (S (S n)))))).
  rewrite parse_value_object.
  rewrite !parse_members_more by lia.
  rewrite parse_members_last by lia.
  reflexivity.
Qed.

Lemma elements_text_cons (m : MessageSnippet) (ms : list MessageSnippet)
    (rest : jsstring) :
  elements_text (m :: ms) ++ 93%N :: rest
  = JSON_stringify (snippet_to_json m)
    ++ match ms with
       | [] => 93%N :: rest
       | _ :: _ => 44%N :: elements_text ms ++ 93%N :: rest
       end.
Proof.
  unfold elements_text. destruct ms as [|m' ms]; [reflexivity|].
  cbn [map join]. change (lit ",") with [44%N].
  now rewrite <- !app_assoc.
Qed.

Lemma parse_elements_snippets (ms : list MessageSnippet) :
  forall (m : MessageSnippet) (n : nat) (rest : jsstring),
  parse_elements (7 + List.length ms + n) (elements_text (m :: ms) ++ 93%N :: rest)
  = Some (map snippet_to_json (m :: ms), rest).
Proof.
  induction ms as [|m' ms IH]; intros m n rest; rewrite elements_text_cons.
  - change (7 + List.length (@nil MessageSnippet) + n) with (S (6 + n)).
    remember (6 + n) as f eqn:F. cbn [parse_elements]. subst f.
    unfold elements_body. rewrite parse_value_snippet. reflexivity.
  - change (7 + List.length (m' :: ms) + n)
      with (S (6 + (S (List.length ms + n)))).
    remember (6 + S (List.length ms + n)) as f eqn:F. cbn [parse_elements].
    subst f. unfold elements_body. rewrite parse_value_snippet.
    cbn [skip_ws is_json_ws N.eqb Pos.eqb orb].
    change (6 + S (List.length ms + n)) with (7 + List.length ms + n).
    rewrite IH. reflexivity.
Qed.

Lemma parse_value_array (n : nat) (s : jsstring) :
  parse_value (S n) (91 :: 123 :: s)%N
  = match parse_elements n (123%N :: s) with
    | Some (vs, r) => Some (JArray vs, r)
    | None => None
    end.
Proof. reflexivity. Qed.

Lemma stringify_snippet_length (m : MessageSnippet) :
  7 <= List.length (JSON_stringify (snippet_to_json m)).
Proof.
  rewrite <- (app_nil_r (JSON_stringify (snippet_to_json m))), stringify_snippet.
  simpl. lia.
Qed.

Lemma elements_text_length (ms : list MessageSnippet) :
  7 * List.length ms <= List.length (elements_text ms).
Proof.
  unfold elements_text. induction ms as [|m ms IH]; [simpl; lia|].
  pose proof (stringify_snippet_length m) as Hm.
  destruct ms as [|m' ms].
  - cbn [map join List.length]. lia.
  - cbn [map join] in *. rewrite !length_app. cbn [List.length] in *. lia.
Qed.

Lemma elements_text_head (m : MessageSnippet) (ms : list MessageSnippet)
    (rest : jsstring) :
  exists tail, elements_text (m :: ms) ++ 93%N :: rest = 123%N :: tail.
Proof. rewrite elements_text_cons, stringify_snippet. eexists. reflexivity. Qed.

Lemma parse_value_messages (ms : list MessageSnippet) (n : nat) (rest : jsstring) :
  parse_value (8 + List.length ms + n) (91%N :: elements_text ms ++ 93%N :: rest)
  = Some (to_json ms, rest).
Proof.
  destruct ms as [|m ms]; [reflexivity|].
  destruct (elements_text_head m ms rest) as [tail Htail].
  replace (8 + List.length (m :: ms) + n) with (S (7 + List.length ms + S n))
    by (cbn [List.length]; lia).
  rewrite Htail, parse_value_array, <- Htail, parse_elements_snippets.
  reflexivity.
Qed.

Lemma stringify_messages (ms : list MessageSnippet) :
  JSON_stringify (to_json ms) = 91%N :: elements_text ms ++ [93%N].
Proof. reflexivity. Qed.

(** [JSON.parse(JSON.stringify(messages))] is the value tree of
    [messages]. *)
Lemma JSON_parse_stringify (ms : list MessageSnippet) :
  JSON_parse (JSON_stringify (to_json ms)) = Some (to_json ms).
Proof.
  unfold JSON_parse. rewrite stringify_messages.
  destruct ms as [|m ms]; [reflexivity|].
  pose proof (elements_text_length (m :: ms)) as HL.
  cbn [List.length] in *. rewrite length_app. cbn [List.length].
  replace (S (S (List.length (elements_text (m :: ms)) + 1)))
    with (8 + S (List.length ms)
          + (List.length (elements_text (m :: ms)) - 5 - S (List.length ms)))
    by lia.
  change (S (List.length ms)) with (List.length (m :: ms)) at 1.
  rewrite parse_value_messages. reflexivity.
Qed.

Lemma as_snippet_to_json (m : MessageSnippet) : as_snippet (snippet_to_json m) = Some m.
Proof. now destruct m. Qed.

Lemma as_messages_to_json (ms : list MessageSnippet) : as_messages (to_json ms) = Some ms.
Proof.
  unfold as_messages, to_json. induction ms as [|m ms IH]; [reflexivity|].
  cbn [map as_snippets]. now rewrite as_snippet_to_json, IH.
Qed.

(** ** The store: save, load, clear *)

Lemma load_effect_saved (C : list MessageSnippet) (w : World) :
  storage w = Some (JSON_stringify (to_json C)) ->
  load_effect w = (w, Some (to_json C)).
Proof.
  intros H. unfold load_effect. rewrite H.
  destruct (JSON_stringify (to_json C)) as [|u text] eqn:E.
  - rewrite stringify_messages in E. discriminate.
  - rewrite <- E, JSON_parse_stringify. reflexivity.
Qed.

Lemma mount_saved (C : list MessageSnippet) :
  mount (Some (JSON_stringify (to_json C)))
  = match groupedMessages C with
    | Some _ =>
        started (setMessages C
                   (save_effect (initial (Some (JSON_stringify (to_json C))))))
    | None => unmounted (save_effect (initial (Some (JSON_stringify (to_json C)))))
    end.
Proof.
  unfold mount. rewrite (load_effect_saved C) by reflexivity.
  now rewrite as_messages_to_json.
Qed.

Lemma load_saved (C : list MessageSnippet) :
  groupedMessages C <> None -> load (Some (JSON_stringify (to_json C))) = Some C.
Proof.
  intros H. unfold load. rewrite mount_saved.
  destruct (groupedMessages C); [reflexivity | congruence].
Qed.

(** C2.  What starting on a saved collection [C] does.  When grouping [C]
    succeeds, the component loads [C] again and the entry keeps the text
    that was saved.  When grouping [C] throws (some category names a
    property inherited from [Object.prototype]), the render of the loaded
    collection throws: nothing is loaded, the component is removed, and the
    entry is left holding the text [[]], the saved collection lost.  The
    collection of the one snippet (constructor, Greeting, Hello!) is such a
    case: saved, it is not loaded again. *)
Theorem save_then_load_unmounted (C : list MessageSnippet) (w : World) :
  let entry := storage (save_effect (set_messages C w)) in
  let m := mkSnippet (lit "1") (lit "constructor") (lit "Greeting")
             (lit "Hello!") in
  match groupedMessages C with
  | Some _ =>
      load entry = Some C
      /\ exists w', mount entry = started w' /\ messages w' = C /\ storage w' = entry
  | None =>
      load entry = None
      /\ exists w', mount entry = unmounted w' /\ storage w' = Some (lit "[]")
  end
  /\ load (storage (save_effect (set_messages [m] w))) = None
  /\ load (storage (save_effect (set_messages [m] w))) <> Some [m].
Proof.
  cbv zeta. unfold load.
  cbn [save_effect set_messages set_storage storage messages].
  split.
  - rewrite mount_saved. destruct (groupedMessages C).
    + split; [reflexivity|]. eexists. split; [reflexivity|]. split; reflexivity.
    + split; [reflexivity|]. eexists. split; reflexivity.
  - split; [vm_compute; reflexivity|]. vm_compute. discriminate.
Qed.

(** C2, at a failing input the component itself produces.  With [zzz] in
    the search box a snippet of category [constructor] is added: it is
    filtered out, the render completes and the save effect stores it.  The
    next start-up on that entry loads nothing, and the entry then holds
    [[]]. *)
Lemma save_then_load_constructor :
  let m := mkSnippet (example_uuid 0) (lit "constructor") (lit "Greeting")
             (lit "Hello!") in
  let entry := Some (JSON_stringify (to_json [m])) in
  (exists w,
     run_session ascii_toLowerCase example_Number_toString example_uuid
       [ type_search (lit "zzz"); user click_add;
         user (submit_form (mkForm (lit "constructor") (lit "Greeting") (lit "Hello!"))) ]
       (running (save_effect (initial None)) [])
     = running w (lit "zzz")
     /\ messages w = [m] /\ storage w = entry)
  /\ load entry = None
  /\ exists w', mount entry = unmounted w' /\ storage w' = Some (lit "[]").
Proof.
  cbv zeta. split.
  - eexists. split; [vm_compute; reflexivity|]. split; reflexivity.
  - split; [vm_compute; reflexivity|]. eexists. split; vm_compute; reflexivity.
Qed.

(** C3.  After a confirmed "clear all" the collection is empty and a later
    load returns the empty collection, but the storage entry is present and
    holds the text [[]]: the handler removed it, and the save effect of the
    render caused by [setMessages([])] wrote it again. *)
Theorem clear_all_entry_present (w : World) :
  storage (set_storage None w) = None
  /\ messages (clear_all true w) = []
  /\ storage (clear_all true w) = Some (lit "[]")
  /\ storage (clear_all true w) <> None
  /\ load (storage (clear_all true w)) = Some [].
Proof. repeat split. discriminate. Qed.

(** C8.  Starting on an absent entry gives the empty collection.  Starting
    on an entry whose text [JSON.parse] rejects gives the empty collection
    too: the component is rendered, the load effect changed nothing but the
    console, where it wrote one error (none for the empty text, which is
    never handed to the parser). *)
Theorem load_fallback (saved : jsstring) :
  JSON_parse saved = None ->
  load None = Some []
  /\ load (Some saved) = Some []
  /\ (forall w, storage w = Some saved -> saved <> [] ->
        load_effect w = (console_error_ Error_loading_snippets w, None))
  /\ exists w', mount (Some saved) = started w'
       /\ messages w' = []
       /\ console w' = match saved with
                       | [] => []
                       | _ :: _ => [Error_loading_snippets]
                       end.
Proof.
  intros Hparse. split; [reflexivity|].
  assert (Hm : exists w', mount (Some saved) = started w'
       /\ messages w' = []
       /\ console w' = match saved with
                       | [] => []
                       | _ :: _ => [Error_loading_snippets]
                       end).
  { unfold mount, load_effect. cbn [storage initial].
    destruct saved as [|u saved].
    - eexists. split; [reflexivity|]. split; reflexivity.
    - rewrite Hparse. eexists. split; [reflexivity|]. split; reflexivity. }
  split.
  { unfold load. destruct Hm as (w' & -> & Hw' & _). now rewrite Hw'. }
  split; [|exact Hm].
  intros w Hw Hne. unfold load_effect. rewrite Hw.
  destruct saved; [congruence|]. now rewrite Hparse.
Qed.

Lemma load_fallback_witness :
  JSON_parse (lit "{not json") = None
  /\ load (Some (lit "{not json")) = Some [].
Proof.
  split; [reflexivity|].
  apply (load_fallback (lit "{not json") eq_refl).
Defined.

(* ================================================================== *)
(** * Part III: further properties of the component                     *)
(* ================================================================== *)

(** ** Delete *)

Lemma setMessages_messages (v : list MessageSnippet) (w : World) :
  messages (setMessages v w) = v.
Proof. reflexivity. Qed.

Lemma setMessages_synced (v : list MessageSnippet) (w : World) :
  synced (setMessages v w).
Proof. reflexivity. Qed.

Lemma filter_absent {A} (f : A -> bool) (l : list A) :
  (forall x, In x l -> f x = true) -> filter f l = l.
Proof.
  induction l as [|x l IH]; intros H; simpl; [reflexivity|].
  rewrite (H x) by now left. f_equal. apply IH. intros y Hy. apply H. now right.
Qed.

Lemma delete_one (id_ : jsstring) (l : list MessageSnippet) :
  NoDup (map id l) -> In id_ (map id l) ->
  S (List.length (filter (fun m => negb (str_eqb (id m) id_)) l)) = List.length l.
Proof.
  induction l as [|m l IH]; simpl; intros Hnd Hin; [destruct Hin|].
  inversion Hnd as [|? ? Hm Hl]; subst.
  destruct (str_eqb (id m) id_) eqn:E; simpl.
  - apply str_eqb_eq in E. subst id_. f_equal. f_equal. apply filter_absent.
    intros x Hx. apply negb_true_iff, str_eqb_neq. intros Ex. apply Hm.
    rewrite <- Ex. now apply in_map.
  - f_equal. apply IH; [assumption|]. destruct Hin as [Hin|Hin]; [|assumption].
    apply str_eqb_neq in E. congruence.
Qed.

(** X1.  A confirmed delete keeps, in their order and with every
    occurrence, exactly the records whose id differs from the one given; it
    changes nothing when no record has that id, removes exactly one record
    when ids are pairwise distinct and the id is present, and leaves the
    storage entry holding the new collection.  A declined delete changes
    nothing at all. *)
Theorem deleteSnippet_removes (id_ : jsstring) (w : World) :
  subsequence (messages (deleteSnippet true id_ w)) (messages w)
  /\ (forall m, In m (messages (deleteSnippet true id_ w)) <->
                In m (messages w) /\ id m <> id_)
  /\ (forall m, id m <> id_ ->
        count_occ snippet_eq_dec (messages (deleteSnippet true id_ w)) m
        = count_occ snippet_eq_dec (messages w) m)
  /\ ((forall m, In m (messages w) -> id m <> id_) ->
        messages (deleteSnippet true id_ w) = messages w)
  /\ (NoDup (map id (messages w)) -> In id_ (map id (messages w)) ->
        S (List.length (messages (deleteSnippet true id_ w)))
        = List.length (messages w))
  /\ synced (deleteSnippet true id_ w)
  /\ deleteSnippet false id_ w = w.
Proof.
  unfold deleteSnippet. rewrite setMessages_messages.
  split; [apply filter_subsequence|].
  split.
  { intros m. rewrite filter_In, negb_true_iff, str_eqb_neq. reflexivity. }
  split.
  { intros m Hm. rewrite filter_count_occ.
    apply str_eqb_neq in Hm. now rewrite Hm. }
  split.
  { intros H. apply filter_absent. intros x Hx.
    apply negb_true_iff, str_eqb_neq. now apply H. }
  split; [apply delete_one|].
  split; [apply setMessages_synced | reflexivity].
Qed.

(** ** Import with nothing to import *)

Lemma set_uuid_calls_same (w : World) (k : nat) :
  k = uuid_calls w -> set_uuid_calls k w = w.
Proof. intros ->. now destruct w. Qed.

(** X2.  When no row after the header has three cells (an empty sheet and
    a header alone included), the import leaves the whole state as it was:
    collection, storage entry, settings overlay and generator.  Otherwise
    the collection grows and the overlay closes; then, with the component
    on screen before the import, either the render that follows completes
    and the storage entry holds the new collection, or it throws and the
    component is removed with the storage entry as it was before the
    import. *)
Theorem handleFileUpload_nothing Number_toString randomUUID
    (data : list (list cell)) (w : World) :
  (retained_rows data = [] <->
     forall row, In row (skipn 1 data) -> List.length row < 3)
  /\ (retained_rows data = [] ->
        handleFileUpload Number_toString randomUUID data w = w)
  /\ (retained_rows data <> [] ->
        List.length (messages w)
          < List.length (messages (handleFileUpload Number_toString randomUUID data w))
        /\ showConfig (handleFileUpload Number_toString randomUUID data w) = false)
  /\ (forall toLowerCase searchTerm,
        render_ok toLowerCase searchTerm (messages w) = true ->
        match step toLowerCase Number_toString randomUUID
                (running w searchTerm) (user (upload data)) with
        | running w' searchTerm' =>
            w' = handleFileUpload Number_toString randomUUID data w
            /\ searchTerm' = searchTerm
            /\ (retained_rows data <> [] -> synced w')
        | crashed kept => retained_rows data <> [] /\ kept = storage w
        end).
Proof.
  split.
  { unfold retained_rows. split.
    - intros H row Hrow. destruct (Nat.leb 3 (List.length row)) eqn:E.
      + assert (X : In row (filter (fun r => Nat.leb 3 (List.length r)) (skipn 1 data)))
          by (apply filter_In; auto).
        rewrite H in X. destruct X.
      + now apply Nat.leb_gt in E.
    - intros H. destruct (filter _ _) as [|r l] eqn:F; [reflexivity|].
      assert (X : In r (filter (fun r => Nat.leb 3 (List.length r)) (skipn 1 data)))
        by (rewrite F; now left).
      apply filter_In in X as [X1 X2]. apply Nat.leb_le in X2.
      specialize (H r X1). lia. }
  assert (Hsame : retained_rows data = [] ->
                  handleFileUpload Number_toString randomUUID data w = w).
  { intros H. unfold handleFileUpload. rewrite H. simpl.
    apply set_uuid_calls_same. lia. }
  split; [exact Hsame|]. split.
  { intros H. unfold handleFileUpload.
    destruct (retained_rows data) as [|r l]; [congruence|]. simpl.
    rewrite length_app. simpl. split; [lia | reflexivity]. }
  intros toLowerCase searchTerm Hok. cbn [step act].
  destruct (render_ok toLowerCase searchTerm
              (messages (handleFileUpload Number_toString randomUUID data w))) eqn:R.
  - split; [reflexivity|]. split; [reflexivity|]. intros H.
    unfold handleFileUpload.
    destruct (retained_rows data) as [|r l]; [congruence | reflexivity].
  - split; [|reflexivity]. intros H. rewrite (Hsame H) in R. congruence.
Qed.

(** ** Expansion toggles *)

Lemma str_eqb_sym (a b : jsstring) : str_eqb a b = str_eqb b a.
Proof.
  destruct (str_eqb a b) eqn:E.
  - apply str_eqb_eq in E. subst. symmetry. now apply str_eqb_eq.
  - apply str_eqb_neq in E. symmetry. apply str_eqb_neq. congruence.
Qed.

Lemma Set_has_delete (k k' : jsstring) (s : list jsstring) :
  Set_has k' (Set_delete k s) = Set_has k' s && negb (str_eqb k' k).
Proof.
  unfold Set_has, Set_delete. induction s as [|x s IH]; [reflexivity|]. simpl.
  destruct (str_eqb k x) eqn:E; simpl; rewrite IH.
  - apply str_eqb_eq in E. subst x.
    destruct (str_eqb k' k); simpl; [now rewrite andb_false_r | reflexivity].
  - destruct (str_eqb k' x) eqn:E'; simpl; [|reflexivity].
    apply str_eqb_eq in E'. subst x. rewrite str_eqb_sym, E. reflexivity.
Qed.

Lemma Set_has_add (k k' : jsstring) (s : list jsstring) :
  Set_has k' (s ++ [k]) = Set_has k' s || str_eqb k' k.
Proof. unfold Set_has. rewrite existsb_app. simpl. now rewrite orb_false_r. Qed.

(** X3.  Toggling a category (or a message) flips whether that key is
    expanded and leaves every other key as it was, so toggling twice
    restores every membership; a set without repeated elements stays so. *)
Theorem toggleCategory_has (s : list jsstring) (k k' : jsstring) :
  Set_has k' (toggleCategory s k) = xorb (Set_has k' s) (str_eqb k' k)
  /\ Set_has k' (toggleCategory (toggleCategory s k) k) = Set_has k' s
  /\ Set_has k' (toggleMessage s k) = xorb (Set_has k' s) (str_eqb k' k)
  /\ (NoDup s -> NoDup (toggleCategory s k)).
Proof.
  assert (H1 : forall s k k',
             Set_has k' (toggleCategory s k) = xorb (Set_has k' s) (str_eqb k' k)).
  { clear. intros s k k'. unfold toggleCategory, Set_add.
    destruct (Set_has k s) eqn:E.
    - rewrite Set_has_delete. destruct (str_eqb k' k) eqn:E'.
      + apply str_eqb_eq in E'. subst k'. rewrite E. reflexivity.
      + simpl. now rewrite andb_true_r, xorb_false_r.
    - rewrite Set_has_add. destruct (str_eqb k' k) eqn:E'.
      + apply str_eqb_eq in E'. subst k'. rewrite E. reflexivity.
      + now rewrite orb_false_r, xorb_false_r. }
  split; [apply H1|]. split.
  { rewrite !H1. destruct (Set_has k' s), (str_eqb k' k); reflexivity. }
  split; [apply H1|].
  intros Hnd. unfold toggleCategory, Set_add. destruct (Set_has k s) eqn:E.
  - now apply NoDup_filter.
  - apply NoDup_app; [assumption | repeat constructor; simpl; tauto |].
    intros x Hx [<-|[]].
    assert (X : Set_has k s = true).
    { apply existsb_exists. exists k. split; [assumption | now apply str_eqb_eq]. }
    congruence.
Qed.

(** ** What each group holds *)

Lemma own_push_at (k c : jsstring) (m : MessageSnippet) (g : Record_) :
  own k (push_at c m g)
  = if str_eqb k c then option_map (fun items => items ++ [m]) (own k g)
    else own k g.
Proof.
  induction g as [|[k' its] g IH]; simpl.
  - now destruct (str_eqb k c).
  - destruct (str_eqb c k') eqn:Ec; simpl.
    + apply str_eqb_eq in Ec. subst k'. now destruct (str_eqb k c).
    + rewrite IH. destruct (str_eqb k k') eqn:Ek; [|reflexivity].
      apply str_eqb_eq in Ek. subst k'. rewrite str_eqb_sym, Ec. reflexivity.
Qed.

Lemma own_app_new (k c : jsstring) (m : MessageSnippet) (g : Record_) :
  own k (g ++ [(c, [m])])
  = match own k g with
    | Some items => Some items
    | None => if str_eqb k c then Some [m] else None
    end.
Proof.
  induction g as [|[k' its] g IH]; simpl; [reflexivity|].
  now destruct (str_eqb k k').
Qed.

Lemma forEach_group_own (ms : list MessageSnippet) : forall (g g' : Record_),
  forEach_group g ms = Some g' ->
  forall k,
    own k g'
    = match own k g, filter (fun m => str_eqb (category m) k) ms with
      | Some items, l => Some (items ++ l)
      | None, [] => None
      | None, l => Some l
      end.
Proof.
  induction ms as [|m ms IH]; intros g g' H k; simpl in *.
  - injection H as <-. destruct (own k g); [now rewrite app_nil_r | reflexivity].
  - destruct (group_step g m) as [g1|] eqn:G; [|discriminate].
    rewrite (IH _ _ H k). unfold group_step in G.
    destruct (own (category m) g) as [its0|] eqn:O.
    + injection G as <-. rewrite own_push_at, (str_eqb_sym k).
      destruct (str_eqb (category m) k) eqn:E.
      * apply str_eqb_eq in E. subst k. rewrite O. simpl.
        now rewrite <- app_assoc.
      * reflexivity.
    + destruct (inherited (category m)); [discriminate|]. injection G as <-.
      rewrite own_app_new, (str_eqb_sym k).
      destruct (str_eqb (category m) k) eqn:E.
      * apply str_eqb_eq in E. subst k. rewrite O. reflexivity.
      * now destruct (own k g).
Qed.

Lemma groupedMessages_lookup (filtered : list MessageSnippet) (g : Record_) :
  groupedMessages filtered = Some g ->
  forall k,
    own k g
    = match filter (fun m => str_eqb (category m) k) filtered with
      | [] => None
      | items => Some items
      end.
Proof.
  intros H k. unfold groupedMessages in H.
  now rewrite (forEach_group_own _ _ _ H k).
Qed.

Lemma groupedMessages_nil (filtered : list MessageSnippet) (g : Record_) :
  groupedMessages filtered = Some g -> (g = [] <-> filtered = []).
Proof.
  intros H. split.
  - intros ->. destruct filtered as [|m ms]; [reflexivity|].
    pose proof (groupedMessages_lookup _ _ H (category m)) as L. simpl in L.
    assert (E : str_eqb (category m) (category m) = true) by now apply str_eqb_eq.
    rewrite E in L. discriminate.
  - intros ->. simpl in H. now injection H as <-.
Qed.

(** X4.  When grouping succeeds, the group read under a category holds
    exactly the filtered snippets of that category, in the order of the
    collection; a category no filtered snippet has reads as no group; and
    there are no groups at all exactly when nothing was filtered in (the
    case in which the view shows its "Sem mensagens" placeholder). *)
Theorem groupedMessages_own (filtered : list MessageSnippet) (g : Record_) :
  groupedMessages filtered = Some g ->
  (forall k,
     own k g
     = match filter (fun m => str_eqb (category m) k) filtered with
       | [] => None
       | items => Some items
       end)
  /\ (g = [] <-> filtered = []).
Proof.
  intros H. split; [now apply groupedMessages_lookup | now apply groupedMessages_nil].
Qed.

Lemma groupedMessages_own_witness :
  let a := mkSnippet (lit "1") (lit "Sales") (lit "Greeting") (lit "Hello!") in
  let b := mkSnippet (lit "2") (lit "Support") (lit "Closing") (lit "Bye") in
  let c := mkSnippet (lit "3") (lit "Sales") (lit "Offer") (lit "Ten percent") in
  groupedMessages [a; b; c] = Some [(lit "Sales", [a; c]); (lit "Support", [b])]
  /\ own (lit "Sales") [(lit "Sales", [a; c]); (lit "Support", [b])] = Some [a; c].
Proof.
  intros a b c. split; [reflexivity|].
  apply (groupedMessages_own [a; b; c]
           [(lit "Sales", [a; c]); (lit "Support", [b])] eq_refl).
Defined.

(** ** What the list view shows *)

Lemma filter_partition_perm {A} (f : A -> bool) (l : list A) :
  Permutation (filter f l ++ filter (fun x => negb (f x)) l) l.
Proof.
  induction l as [|x l IH]; simpl; [reflexivity|].
  destruct (f x); simpl.
  - now constructor.
  - rewrite <- Permutation_middle. now constructor.
Qed.

Lemma Object_entries_perm (g : Record_) : Permutation (Object_entries g) g.
Proof.
  unfold Object_entries. rewrite sort_by_perm. apply filter_partition_perm.
Qed.

Lemma own_In (k : jsstring) (items : list MessageSnippet) (g : Record_) :
  NoDup (map fst g) -> (In (k, items) g <-> own k g = Some items).
Proof.
  induction g as [|[k' its] g IH]; simpl; intros Hnd.
  - split; [intros [] | discriminate].
  - inversion Hnd as [|? ? Hk Hg]; subst. destruct (str_eqb k k') eqn:E.
    + apply str_eqb_eq in E. subst k'. split.
      * intros [H|H]; [congruence|]. exfalso. apply Hk.
        change k with (fst (k, items)). now apply in_map.
      * intros H. left. congruence.
    + apply str_eqb_neq in E. rewrite <- (IH Hg). split.
      * intros [H|H]; [congruence | assumption].
      * now right.
Qed.

(** X5.  When the list view renders, it shows one block per category that
    occurs among the filtered snippets and no other: the blocks have
    pairwise distinct categories, and a block of category [k] with items
    [items] is shown exactly when [items] is the non-empty list of the
    filtered snippets of category [k], in the order of the collection (so
    the count beside the category is their number). *)
Theorem displayed_groups_complete (filtered : list MessageSnippet)
    (shown : list (jsstring * list MessageSnippet)) :
  displayed_groups filtered = Some shown ->
  NoDup (map fst shown)
  /\ (forall k items,
        In (k, items) shown <->
        items <> [] /\ items = filter (fun m => str_eqb (category m) k) filtered)
  /\ (shown = [] <-> filtered = []).
Proof.
  unfold displayed_groups.
  destruct (groupedMessages filtered) as [g|] eqn:G; [|discriminate].
  intros H. injection H as <-.
  assert (P : Permutation (Array_sort (Object_entries g)) g).
  { unfold Array_sort. rewrite sort_by_perm. apply Object_entries_perm. }
  destruct (groupedMessages_partition filtered) as (g0 & G0 & Hnd & _).
  { intros m Hm. destruct (inherited (category m)) eqn:I; [|reflexivity].
    assert (X : groupedMessages filtered = None).
    { apply groupedMessages_TypeError. now exists m. }
    congruence. }
  assert (g0 = g) by congruence. subst g0.
  pose proof (groupedMessages_lookup filtered g G) as Hown.
  pose proof (groupedMessages_nil filtered g G) as Hempty.
  split.
  { apply (Permutation_NoDup (l := map fst g)); [|assumption].
    apply Permutation_map. now symmetry. }
  split.
  { intros k items. rewrite (Permutation_in' (eq_refl (k, items)) P).
    rewrite (own_In k items g Hnd), Hown.
    destruct (filter (fun m => str_eqb (category m) k) filtered) as [|x l].
    - split; [discriminate | intros [H1 H2]; congruence].
    - split.
      + intros H. injection H as <-. split; [discriminate | reflexivity].
      + intros [_ ->]. reflexivity. }
  rewrite <- Hempty. split.
  - intros E. rewrite E in P. now apply Permutation_nil.
  - intros ->. reflexivity.
Qed.

Lemma displayed_groups_complete_witness :
  let a := mkSnippet (lit "1") (lit "Sales") (lit "Greeting") (lit "Hello!") in
  let b := mkSnippet (lit "2") (lit "Support") (lit "Closing") (lit "Bye") in
  let c := mkSnippet (lit "3") (lit "Sales") (lit "Offer") (lit "Ten percent") in
  displayed_groups [b; a; c] = Some [(lit "Sales", [a; c]); (lit "Support", [b])]
  /\ NoDup (map fst [(lit "Sales", [a; c]); (lit "Support", [b])]).
Proof.
  intros a b c. split; [reflexivity|].
  apply (displayed_groups_complete [b; a; c]
           [(lit "Sales", [a; c]); (lit "Support", [b])] eq_refl).
Defined.

(** ** Refining a search *)

Lemma includes_trans (s t t' : jsstring) :
  includes s t = true -> includes t t' = true -> includes s t' = true.
Proof.
  rewrite !includes_spec. intros (a & b & ->) (c & d & ->).
  exists (a ++ c), (d ++ b). now rewrite <- !app_assoc.
Qed.

Lemma filter_filter_impl {A} (p q : A -> bool) (l : list A) :
  (forall x, p x = true -> q x = true) ->
  filter p (filter q l) = filter p l.
Proof.
  intros H. induction l as [|x l IH]; simpl; [reflexivity|].
  destruct (q x) eqn:Q; simpl.
  - now rewrite IH.
  - destruct (p x) eqn:P; [|assumption]. apply H in P. congruence.
Qed.

(** X6.  A search term that contains another one (both lower-cased) finds
    a sub-sequence of what the other finds, and searching within the other's
    results gives the same as searching the whole collection: typing on
    only narrows the list. *)
Theorem filteredMessages_narrows (toLowerCase : jsstring -> jsstring)
    (C : list MessageSnippet) (t t' : jsstring) :
  (exists pre post, toLowerCase t = pre ++ toLowerCase t' ++ post) ->
  subsequence (filteredMessages toLowerCase C t) (filteredMessages toLowerCase C t')
  /\ filteredMessages toLowerCase (filteredMessages toLowerCase C t') t
     = filteredMessages toLowerCase C t.
Proof.
  intros H. apply includes_spec in H.
  assert (Himp : forall m,
            matches_term toLowerCase (toLowerCase t) m = true ->
            matches_term toLowerCase (toLowerCase t') m = true).
  { intros m. unfold matches_term. rewrite !orb_true_iff.
    intros [[M|M]|M]; [left; left | left; right | right];
      eapply includes_trans; eassumption. }
  unfold filteredMessages. split.
  - rewrite <- (filter_filter_impl _ _ C Himp). apply filter_subsequence.
  - now apply filter_filter_impl.
Qed.

Lemma filteredMessages_narrows_witness :
  let a := mkSnippet (lit "1") (lit "Sales") (lit "Greeting") (lit "Hello!") in
  let b := mkSnippet (lit "2") (lit "Support") (lit "Cell") (lit "Call us") in
  (exists pre post,
     ascii_toLowerCase (lit "Hello") = pre ++ ascii_toLowerCase (lit "ELL") ++ post)
  /\ filteredMessages ascii_toLowerCase
       (filteredMessages ascii_toLowerCase [a; b] (lit "ELL")) (lit "Hello")
     = filteredMessages ascii_toLowerCase [a; b] (lit "Hello").
Proof.
  intros a b.
  assert (H : exists pre post,
     ascii_toLowerCase (lit "Hello") = pre ++ ascii_toLowerCase (lit "ELL") ++ post).
  { exists (lit "h"), (lit "o"). reflexivity. }
  split; [exact H|].
  apply (filteredMessages_narrows ascii_toLowerCase [a; b] (lit "Hello") (lit "ELL") H).
Defined.

(** ** Start-up and durability *)

Lemma load_synced (w : World) :
  synced w -> groupedMessages (messages w) <> None ->
  load (storage w) = Some (messages w).
Proof. intros H G. rewrite H. now apply load_saved. Qed.

Lemma load_synced_unmounted (w : World) :
  synced w -> groupedMessages (messages w) = None -> load (storage w) = None.
Proof. intros H G. unfold load. now rewrite H, mount_saved, G. Qed.

Lemma mount_started_synced (entry : option jsstring) (w : World) :
  mount entry = started w -> synced w.
Proof.
  unfold mount, load_effect. cbn [storage initial].
  destruct entry as [[|u saved]|].
  - intros H. now injection H as <-.
  - destruct (JSON_parse (u :: saved)) as [v|].
    + destruct (as_messages v) as [ms|]; [|discriminate].
      destruct (groupedMessages ms); [|discriminate].
      intros H. now injection H as <-.
    + intros H. now injection H as <-.
  - intros H. now injection H as <-.
Qed.

(** X7.  However start-up ends with the component rendered, the storage
    entry then holds the text of the collection in memory.  In particular
    an entry that was absent, or that [JSON.parse] rejected, has been
    replaced by the text [[]]: the unreadable text is gone. *)
Theorem mount_synced (entry : option jsstring) (w : World) :
  mount entry = started w ->
  synced w
  /\ (entry = None \/ (exists saved, entry = Some saved /\ JSON_parse saved = None) ->
      messages w = [] /\ storage w = Some (lit "[]")).
Proof.
  unfold mount, load_effect. cbn [storage initial].
  destruct entry as [[|u saved]|].
  - intros H. injection H as <-. split; [reflexivity|]. intros _. split; reflexivity.
  - destruct (JSON_parse (u :: saved)) as [v|] eqn:P.
    + destruct (as_messages v) as [ms|]; [|discriminate].
      destruct (groupedMessages ms); [|discriminate].
      intros H. injection H as <-. split; [reflexivity|].
      intros [H|(s & H1 & H2)]; [discriminate|]. injection H1 as <-. congruence.
    + intros H. injection H as <-. split; [reflexivity|]. intros _. split; reflexivity.
  - intros H. injection H as <-. split; [reflexivity|]. intros _. split; reflexivity.
Qed.

Lemma mount_synced_witness :
  exists w, mount (Some (lit "{not json")) = started w
            /\ storage w = Some (lit "[]").
Proof.
  eexists. split; [reflexivity|].
  apply (mount_synced (Some (lit "{not json")) _ eq_refl).
  right. exists (lit "{not json"). split; reflexivity.
Defined.

Lemma act_synced Number_toString randomUUID (w : World) (a : action) :
  synced w -> synced (act Number_toString randomUUID w a).
Proof.
  intros H. destruct a; simpl; try exact H.
  - unfold addOrUpdateSnippet. destruct (viewMode w); reflexivity.
  - destruct confirmed; [reflexivity | exact H].
  - destruct confirmed; [reflexivity | exact H].
  - unfold handleFileUpload.
    destruct (Nat.ltb 0 _); [reflexivity | exact H].
  - unfold handleCopy. destruct written; exact H.
  - unfold elapse.
    destruct (filter (fun d => N.leb d (now w + dt)) (timers w)); exact H.
Qed.

(** The entry a session has: that of its world while it runs, the one it
    left once removed.  It is always the text of a collection. *)
Lemma step_entry toLowerCase Number_toString randomUUID (s : session) (e : event) :
  match s with
  | running w _ => synced w
  | crashed entry => exists ms, entry = Some (JSON_stringify (to_json ms))
  end ->
  match step toLowerCase Number_toString randomUUID s e with
  | running w _ => synced w
  | crashed entry => exists ms, entry = Some (JSON_stringify (to_json ms))
  end.
Proof.
  destruct s as [w term|entry]; [|intros H; exact H]. intros H.
  destruct e as [a|t]; simpl.
  - destruct (render_ok toLowerCase term _).
    + now apply act_synced.
    + now exists (messages w).
  - destruct (render_ok toLowerCase t (messages w)); [exact H|].
    now exists (messages w).
Qed.

Lemma run_session_entry toLowerCase Number_toString randomUUID
    (events : list event) : forall s : session,
  match s with
  | running w _ => synced w
  | crashed entry => exists ms, entry = Some (JSON_stringify (to_json ms))
  end ->
  match run_session toLowerCase Number_toString randomUUID events s with
  | running w _ => synced w
  | crashed entry => exists ms, entry = Some (JSON_stringify (to_json ms))
  end.
Proof.
  induction events as [|e events IH]; intros s H; [exact H|].
  apply IH. now apply step_entry.
Qed.

Lemma run_session_crashed toLowerCase Number_toString randomUUID
    (events : list event) (entry : option jsstring) :
  run_session toLowerCase Number_toString randomUUID events (crashed entry)
  = crashed entry.
Proof. induction events as [|e events IH]; [reflexivity | exact IH]. Qed.

(** A session that ends with the component removed ran up to some event
    whose render threw, and keeps the entry it had just before. *)
Lemma run_session_last_render toLowerCase Number_toString randomUUID
    (events : list event) : forall (w0 : World) (t0 : jsstring) kept,
  run_session toLowerCase Number_toString randomUUID events (running w0 t0)
  = crashed kept ->
  exists before e after w t,
    events = before ++ e :: after
    /\ run_session toLowerCase Number_toString randomUUID before (running w0 t0)
       = running w t
    /\ step toLowerCase Number_toString randomUUID (running w t) e
       = crashed kept
    /\ kept = storage w.
Proof.
  induction events as [|e events IH]; intros w0 t0 kept H; [discriminate|].
  change (run_session toLowerCase Number_toString randomUUID events
            (step toLowerCase Number_toString randomUUID (running w0 t0) e)
          = crashed kept) in H.
  destruct (step toLowerCase Number_toString randomUUID (running w0 t0) e)
    as [w1 t1|k] eqn:S.
  - destruct (IH w1 t1 kept H) as (before & e' & after & w & t & E & R & C & K).
    exists (e :: before), e', after, w, t. split; [now rewrite E|].
    split; [|now split].
    change (run_session toLowerCase Number_toString randomUUID before
              (step toLowerCase Number_toString randomUUID (running w0 t0) e)
            = running w t).
    rewrite S. exact R.
  - rewrite run_session_crashed in H. injection H as <-.
    exists [], e, events, w0, t0. split; [reflexivity|]. split; [reflexivity|].
    split; [exact S|].
    destruct e as [a|t]; cbn [step] in S.
    + destruct (render_ok toLowerCase t0 _); [discriminate | congruence].
    + destruct (render_ok toLowerCase t (messages w0)); [discriminate | congruence].
Qed.

(** X8.  After start-up, whatever follows (adding, editing, deleting,
    clearing, importing, overlays, copying, waiting, typing a search term).
    While the component is on screen, the storage entry is the text the
    export button would download, the text of the collection in memory; a
    new start-up on it loads exactly that collection when grouping the
    whole collection succeeds, and loads nothing when it throws.  Once a
    render has thrown and the component is removed, the entry left is the
    export text of the world the component had when the event whose render
    threw arrived: what that event changed is not stored. *)
Theorem session_durable toLowerCase Number_toString randomUUID
    (entry : option jsstring) (w0 : World) (events : list event) :
  mount entry = started w0 ->
  match run_session toLowerCase Number_toString randomUUID events (running w0 []) with
  | running w _ =>
      storage w = Some (export_text w)
      /\ match groupedMessages (messages w) with
         | Some _ => load (storage w) = Some (messages w)
         | None => load (storage w) = None
         end
  | crashed kept =>
      exists before e after w t,
        events = before ++ e :: after
        /\ run_session toLowerCase Number_toString randomUUID before (running w0 [])
           = running w t
        /\ step toLowerCase Number_toString randomUUID (running w t) e
           = crashed kept
        /\ kept = Some (export_text w)
  end.
Proof.
  intros H. apply mount_started_synced in H.
  destruct (run_session _ _ _ events (running w0 [])) as [w term|kept] eqn:R.
  - pose proof (run_session_entry toLowerCase Number_toString randomUUID events
                  (running w0 []) H) as S.
    rewrite R in S. split; [exact S|].
    destruct (groupedMessages (messages w)) eqn:G.
    + apply load_synced; [exact S | congruence].
    + now apply load_synced_unmounted.
  - apply run_session_last_render in R
      as (before & e & after & w & t & E & R & C & K).
    exists before, e, after, w, t. split; [exact E|]. split; [exact R|].
    split; [exact C|].
    pose proof (run_session_entry toLowerCase Number_toString randomUUID before
                  (running w0 []) H) as S.
    rewrite R in S. rewrite K. exact S.
Qed.

Lemma session_durable_witness :
  let events :=
    [ user click_add;
      user (submit_form (mkForm (lit "Sales") (lit "Greeting") (lit "Hello!")));
      type_search (lit "zzz");
      user click_add;
      user (submit_form (mkForm (lit "toString") (lit "Offer") []));
      user (click_delete true (example_uuid 0)) ] in
  let w0 := save_effect (initial None) in
  mount None = started w0
  /\ exists w,
       run_session ascii_toLowerCase example_Number_toString example_uuid
         events (running w0 [])
       = running w (lit "zzz")
       /\ map category (messages w) = [lit "toString"]
       /\ storage w = Some (export_text w)
       /\ load (storage w) = None.
Proof.
  intros events w0. split; [reflexivity|].
  pose proof (session_durable ascii_toLowerCase example_Number_toString
                example_uuid None w0 events eq_refl) as H.
  destruct (run_session ascii_toLowerCase example_Number_toString example_uuid
              events (running w0 [])) as [w term|kept] eqn:R.
  - vm_compute in R. injection R as <- <-.
    eexists. split; [reflexivity|]. split; [reflexivity|].
    destruct H as [H1 H2]. split; [exact H1 | exact H2].
  - vm_compute in R. discriminate R.
Defined.

(** ** Identifiers *)

Lemma map_rows_ids Number_toString randomUUID
    (rows : list (list cell)) : forall k,
  map id (map_rows Number_toString randomUUID k rows)
  = map randomUUID (seq k (List.length rows)).
Proof.
  induction rows as [|r rows IH]; intros k; simpl; [reflexivity|].
  now rewrite IH.
Qed.

Lemma handleFileUpload_uuid_calls Number_toString randomUUID
    (data : list (list cell)) (w : World) :
  uuid_calls (handleFileUpload Number_toString randomUUID data w)
  = uuid_calls w + List.length (retained_rows data).
Proof.
  unfold handleFileUpload. rewrite map_rows_length.
  destruct (Nat.ltb 0 _); reflexivity.
Qed.

Lemma filter_keeps_distinct_ids (keep : MessageSnippet -> bool)
    (ms : list MessageSnippet) (D : NoDup (map id ms)) :
  NoDup (map id (filter keep ms)).
Proof.
  induction ms as [|m ms IH]; [constructor|].
  apply NoDup_cons_iff in D as [Hm D]. cbn [filter].
  destruct (keep m); [|now apply IH]. cbn [map].
  apply NoDup_cons; [|now apply IH].
  intros X. apply Hm. apply in_map_iff in X as (y & Hy & Y).
  apply filter_In in Y as [Y _]. rewrite <- Hy. now apply in_map.
Qed.

Lemma replace_by_id_In (snippet m : MessageSnippet) (prev : list MessageSnippet) :
  In m (replace_by_id snippet prev) -> exists m0, In m0 prev /\ id m = id m0.
Proof.
  unfold replace_by_id. rewrite in_map_iff. intros (m0 & E & H0).
  exists m0. split; [assumption|].
  destruct (str_eqb (id m0) (id snippet)) eqn:S; subst m; [|reflexivity].
  symmetry. now apply str_eqb_eq.
Qed.

Lemma NoDup_map_injective {A B} (f : A -> B) (l : list A) :
  (forall x y, f x = f y -> x = y) -> NoDup l -> NoDup (map f l).
Proof.
  intros Hf. induction 1 as [|x l Hx Hl IH]; simpl; constructor; [|assumption].
  intros X. apply in_map_iff in X as (y & Hy & Y). apply Hf in Hy. congruence.
Qed.

Section Identifiers.
Variable Number_toString : float -> jsstring.
Variable randomUUID : nat -> jsstring.

(** The generator never returns the same identifier twice. *)
Hypothesis randomUUID_injective : forall j k, randomUUID j = randomUUID k -> j = k.

Lemma fresh_ids (w : World) (n : nat) :
  unique_ids randomUUID w ->
  NoDup (map id (messages w) ++ map randomUUID (seq (uuid_calls w) n)).
Proof.
  intros [Hnd Hgen]. apply NoDup_app; [assumption | |].
  - apply NoDup_map_injective; [exact randomUUID_injective | apply seq_NoDup].
  - intros x Hx Hy. apply in_map_iff in Hx as (m & <- & Hm).
    apply in_map_iff in Hy as (j & Hj & Hseq). apply in_seq in Hseq.
    apply (Hgen m j Hm); [lia | now symmetry].
Qed.

(** X9.  With a generator that never repeats, a collection whose ids are
    pairwise distinct and are none of the identifiers the generator is
    still to return stays so through an import, a delete, a clear, and a
    submitted form; for the form this needs it to be in edit mode or
    [editingSnippet] to be [null]. *)
Theorem unique_ids_kept (w : World) :
  unique_ids randomUUID w ->
  (forall data,
     unique_ids randomUUID (handleFileUpload Number_toString randomUUID data w))
  /\ (forall confirmed id_, unique_ids randomUUID (deleteSnippet confirmed id_ w))
  /\ (forall confirmed, unique_ids randomUUID (clear_all confirmed w))
  /\ (forall form, viewMode w = edit_mode \/ editingSnippet w = None ->
        unique_ids randomUUID (addOrUpdateSnippet randomUUID form w)).
Proof.
  intros U. pose proof U as [Hnd Hgen]. split.
  { intros data. unfold unique_ids.
    rewrite handleFileUpload_messages, handleFileUpload_uuid_calls.
    rewrite map_app, map_rows_ids. split; [now apply fresh_ids|].
    intros m k Hm Hk. apply in_app_or in Hm as [Hm|Hm].
    - apply Hgen; [exact Hm | lia].
    - apply (in_map id) in Hm. rewrite map_rows_ids in Hm.
      apply in_map_iff in Hm as (j & Hj & Hseq). apply in_seq in Hseq.
      rewrite <- Hj. intros E. apply randomUUID_injective in E. lia. }
  split.
  { intros [|] id_; [|exact U]. unfold unique_ids, deleteSnippet.
    rewrite setMessages_messages. split; [now apply filter_keeps_distinct_ids|].
    intros m k Hm. apply filter_In in Hm as [Hm _]. now apply Hgen. }
  split.
  { intros [|]; [|exact U]. split; [constructor | intros m k []]. }
  intros form Hmode. unfold unique_ids.
  assert (Hcalls : uuid_calls (addOrUpdateSnippet randomUUID form w)
                   = snd (snippet_id randomUUID w)).
  { unfold addOrUpdateSnippet. destruct (viewMode w); reflexivity. }
  assert (Hle : uuid_calls w <= snd (snippet_id randomUUID w)).
  { unfold snippet_id. destruct (editingSnippet w) as [e|]; [destruct (id e)|]; simpl; lia. }
  rewrite Hcalls.
  destruct (viewMode w) eqn:V.
  3:{ rewrite (addOrUpdateSnippet_edit_messages _ _ _ V), replace_by_id_ids.
      split; [assumption|]. intros m k Hm Hk.
      apply replace_by_id_In in Hm as (m0 & H0 & E). rewrite E.
      apply Hgen; [exact H0 | lia]. }
  all: destruct Hmode as [Hmode|Hmode]; [discriminate|].
  all: assert (Hmsg : messages (addOrUpdateSnippet randomUUID form w)
                      = messages w ++ [form_snippet randomUUID form w])
         by (unfold addOrUpdateSnippet; rewrite V; reflexivity).
  all: rewrite Hmsg, map_app; unfold form_snippet, snippet_id; rewrite Hmode; simpl.
  all: split; [exact (fresh_ids w 1 U)|].
  all: intros m k Hm Hk; apply in_app_or in Hm as [Hm|[<-|[]]];
       [ apply Hgen; [exact Hm | lia]
       | simpl; intros E; apply randomUUID_injective in E; lia ].
Qed.
End Identifiers.

Lemma example_uuid_injective (j k : nat) : example_uuid j = example_uuid k -> j = k.
Proof.
  unfold example_uuid. intros H. apply (f_equal (@List.length N)) in H.
  rewrite !repeat_length in H. lia.
Qed.

Lemma unique_ids_kept_witness :
  let a := mkSnippet (lit "a") (lit "Sales") (lit "Greeting") (lit "Hello!") in
  let b := mkSnippet (lit "b") (lit "Support") (lit "Closing") (lit "Bye") in
  let stored := Some (JSON_stringify (to_json [a; b])) in
  let w0 := setMessages [a; b] (save_effect (initial stored)) in
  mount stored = started w0
  /\ uuid_calls w0 = 0
  /\ unique_ids example_uuid w0
  /\ unique_ids example_uuid
       (addOrUpdateSnippet example_uuid
          (mkForm (lit "Sales") (lit "Offer") (lit "Ten percent"))
          (open_add w0)).
Proof.
  intros a b stored w0.
  assert (U : unique_ids example_uuid (open_add w0)).
  { split.
    - repeat constructor; simpl; intuition discriminate.
    - intros m k [<-|[<-|[]]] _; discriminate. }
  split; [vm_compute; reflexivity|]. split; [reflexivity|]. split; [exact U|].
  apply (unique_ids_kept example_Number_toString example_uuid
           example_uuid_injective (open_add w0) U).
  now right.
Defined.

(** X10.  The "Adicionar" button sets the view mode and leaves
    [editingSnippet] as it is.  So when the form of a record being edited is
    turned into the add form and submitted, the collection gains a record
    that carries the id of the edited one, which stays in place: two records
    then share an id. *)
Theorem open_add_keeps_editing randomUUID (item : MessageSnippet)
    (form : FormData) (w : World) :
  In item (messages w) -> id item <> [] ->
  editingSnippet (open_add (start_edit item w)) = Some item
  /\ messages (addOrUpdateSnippet randomUUID form (open_add (start_edit item w)))
     = messages w
       ++ [ {| id := id item;
               category := str_or (form_category form) Geral;
               title := str_or (form_title form) Sem_Titulo;
               content := str_or (form_content form) [] |} ]
  /\ ~ NoDup (map id (messages
                (addOrUpdateSnippet randomUUID form (open_add (start_edit item w))))).
Proof.
  intros Hin Hid. split; [reflexivity|].
  assert (E : messages (addOrUpdateSnippet randomUUID form (open_add (start_edit item w)))
     = messages w
       ++ [ {| id := id item;
               category := str_or (form_category form) Geral;
               title := str_or (form_title form) Sem_Titulo;
               content := str_or (form_content form) [] |} ]).
  { unfold addOrUpdateSnippet, form_snippet, snippet_id. simpl.
    destruct (id item); [congruence | reflexivity]. }
  split; [exact E|]. rewrite E, map_app. simpl. intros Hnd.
  apply NoDup_remove_2 in Hnd. apply Hnd. rewrite app_nil_r. now apply in_map.
Qed.

Lemma open_add_keeps_editing_witness :
  let a := mkSnippet (lit "a") (lit "Sales") (lit "Greeting") (lit "Hello!") in
  map id (messages (addOrUpdateSnippet example_uuid
                      (mkForm (lit "Sales") (lit "Offer") (lit "Ten percent"))
                      (open_add (start_edit a (set_messages [a] (initial None))))))
  = [lit "a"; lit "a"].
Proof.
  intros a.
  rewrite (proj1 (proj2 (open_add_keeps_editing example_uuid a
             (mkForm (lit "Sales") (lit "Offer") (lit "Ten percent"))
             (set_messages [a] (initial None))
             (or_introl eq_refl) ltac:(discriminate)))).
  reflexivity.
Defined.

(** ** Copy feedback over any history *)

Lemma filter_absent_nil {A} (f : A -> bool) (l : list A) :
  (forall x, In x l -> f x = false) -> filter f l = [].
Proof.
  induction l as [|x l IH]; intros H; simpl; [reflexivity|].
  rewrite (H x) by now left. apply IH. intros y Hy. apply H. now right.
Qed.

Lemma handleCopy_bounded (written : bool) (id_ : jsstring) (w : World) :
  timers_bounded w -> timers_bounded (handleCopy written id_ w).
Proof.
  intros [Hb Hf]. unfold handleCopy. destruct written; [|split; assumption].
  split; simpl.
  - intros d Hd. apply in_app_or in Hd as [Hd|[<-|[]]]; [now apply Hb | lia].
  - intros _ E. now apply app_eq_nil in E as [_ E].
Qed.

Lemma elapse_bounded (dt : N) (w : World) :
  timers_bounded w -> timers_bounded (elapse dt w).
Proof.
  intros [Hb Hf]. unfold elapse.
  destruct (filter (fun d => N.leb d (now w + dt)) (timers w)) as [|d0 due] eqn:D;
    split; simpl.
  - intros d Hd. apply filter_In in Hd as [Hd Hlt].
    apply negb_true_iff, N.leb_gt in Hlt. specialize (Hb d Hd). lia.
  - intros Hc. specialize (Hf Hc). destruct (timers w) as [|d l]; [congruence|].
    assert (X : In d (filter (fun d => negb (N.leb d (now w + dt))) (d :: l))).
    { apply filter_In. split; [now left|]. apply negb_true_iff.
      destruct (N.leb d (now w + dt)) eqn:L; [|reflexivity].
      assert (Y : In d (filter (fun d => N.leb d (now w + dt)) (d :: l))).
      { apply filter_In. split; [now left | exact L]. }
      rewrite D in Y. destruct Y. }
    intros E. rewrite E in X. destruct X.
  - intros d Hd. apply filter_In in Hd as [Hd Hlt].
    apply negb_true_iff, N.leb_gt in Hlt. specialize (Hb d Hd). lia.
  - congruence.
Qed.

Lemma act_bounded Number_toString randomUUID (w : World) (a : action) :
  timers_bounded w -> timers_bounded (act Number_toString randomUUID w a).
Proof.
  intros H. destruct a; simpl; try exact H.
  - unfold addOrUpdateSnippet. destruct (viewMode w); exact H.
  - destruct confirmed; exact H.
  - destruct confirmed; exact H.
  - unfold handleFileUpload. destruct (Nat.ltb 0 _); exact H.
  - now apply handleCopy_bounded.
  - now apply elapse_bounded.
Qed.

Lemma run_bounded Number_toString randomUUID (actions : list action) : forall w,
  timers_bounded w -> timers_bounded (run Number_toString randomUUID actions w).
Proof.
  induction actions as [|a actions IH]; intros w H; [exact H|].
  apply IH. now apply act_bounded.
Qed.

Lemma mount_bounded (entry : option jsstring) (w : World) :
  mount entry = started w -> timers_bounded w.
Proof.
  unfold mount, load_effect. cbn [storage initial].
  assert (B : forall w', timers w' = [] -> copyFeedback w' = None -> timers_bounded w').
  { intros w' T F. split; [rewrite T; intros d [] | congruence]. }
  destruct entry as [[|u saved]|].
  - intros H. injection H as <-. now apply B.
  - destruct (JSON_parse (u :: saved)) as [v|].
    + destruct (as_messages v) as [ms|]; [|discriminate].
      destruct (groupedMessages ms); [|discriminate].
      intros H. injection H as <-. now apply B.
    + intros H. injection H as <-. now apply B.
  - intros H. injection H as <-. now apply B.
Qed.

(** X11.  After start-up and any sequence of actions, every pending timer
    is due within the coming second and an acknowledgment is shown only
    while a timer is pending; hence one second without action always ends
    with no acknowledgment shown and no timer left, however many copies
    were made and however they were spaced. *)
Theorem copy_feedback_clears Number_toString randomUUID
    (entry : option jsstring) (w0 : World) (actions : list action) :
  mount entry = started w0 ->
  timers_bounded (run Number_toString randomUUID actions w0)
  /\ copyFeedback (elapse 1000 (run Number_toString randomUUID actions w0)) = None
  /\ timers (elapse 1000 (run Number_toString randomUUID actions w0)) = [].
Proof.
  intros H. apply mount_bounded in H.
  pose proof (run_bounded Number_toString randomUUID actions w0 H) as B.
  split; [exact B|]. destruct B as [Hb Hf].
  set (w := run Number_toString randomUUID actions w0) in *.
  assert (T : timers (elapse 1000 w) = []).
  { unfold elapse. simpl. apply filter_absent_nil. intros d Hd.
    apply negb_false_iff, N.leb_le. specialize (Hb d Hd). lia. }
  split; [|exact T].
  destruct (copyFeedback w) as [x|] eqn:F.
  - assert (N : timers w <> []) by (apply Hf; discriminate).
    destruct (timers w) as [|d l] eqn:Tw; [congruence|].
    assert (Hd : In d (timers w)) by (rewrite Tw; now left).
    apply elapse_due with (d := d); [exact Hd|].
    rewrite <- Tw in Hb. specialize (Hb d Hd). lia.
  - unfold elapse.
    destruct (filter (fun d => N.leb d (now w + 1000)) (timers w)); [exact F | reflexivity].
Qed.

Lemma copy_feedback_clears_witness :
  copyFeedback
    (elapse 1000
       (run example_Number_toString example_uuid
          [copy true (lit "x"); wait 400; copy true (lit "y"); wait 700;
           copy true (lit "z")]
          (save_effect (initial None)))) = None.
Proof.
  exact (proj1 (proj2 (copy_feedback_clears example_Number_toString example_uuid None
                         (save_effect (initial None))
                         [copy true (lit "x"); wait 400; copy true (lit "y");
                          wait 700; copy true (lit "z")]
                         eq_refl))).
Defined.

(** ** Import: columns beyond the third, and outer white space *)

Lemma at_index_firstn (row : list cell) (i : nat) :
  i < 3 -> at_index (firstn 3 row) i = at_index row i.
Proof.
  intros H. unfold at_index.
  destruct row as [|a [|b [|c row]]]; try reflexivity.
  destruct i as [|[|[|i]]]; try reflexivity. lia.
Qed.

Lemma firstn_3_length (row : list cell) :
  Nat.leb 3 (List.length (firstn 3 row)) = Nat.leb 3 (List.length row).
Proof. now destruct row as [|a [|b [|c row]]]. Qed.

Lemma retained_rows_firstn (data : list (list cell)) :
  retained_rows (map (firstn 3) data) = map (firstn 3) (retained_rows data).
Proof.
  unfold retained_rows. destruct data as [|header data]; [reflexivity|].
  cbn [map skipn].
  induction data as [|row data IH]; [reflexivity|]. cbn [map filter].
  rewrite firstn_3_length.
  destruct (Nat.leb 3 (List.length row)); cbn [map]; now rewrite IH.
Qed.

Lemma map_rows_firstn Number_toString randomUUID
    (rows : list (list cell)) : forall k,
  map_rows Number_toString randomUUID k (map (firstn 3) rows)
  = map_rows Number_toString randomUUID k rows.
Proof.
  induction rows as [|row rows IH]; intros k; cbn [map map_rows]; [reflexivity|].
  rewrite IH. f_equal. unfold snippet_of_row.
  now rewrite !at_index_firstn by lia.
Qed.

(** X12.  Only the first three cells of a row count: cutting every row of
    the sheet down to its first three cells changes nothing in what the
    import does. *)
Theorem handleFileUpload_three_columns Number_toString randomUUID
    (data : list (list cell)) (w : World) :
  handleFileUpload Number_toString randomUUID (map (firstn 3) data) w
  = handleFileUpload Number_toString randomUUID data w.
Proof.
  unfold handleFileUpload. now rewrite retained_rows_firstn, map_rows_firstn.
Qed.

Lemma trimStart_head (s : jsstring) (u : code_unit) (rest : jsstring) :
  trimStart s = u :: rest -> is_white_space u = false.
Proof.
  induction s as [|v s IH]; simpl; [discriminate|].
  destruct (is_white_space v) eqn:E; [exact IH|]. intros H. now injection H as <- _.
Qed.

Lemma trimStart_snoc (s : jsstring) (u : code_unit) :
  is_white_space u = false ->
  exists init, trimStart (s ++ [u]) = init ++ [u].
Proof.
  intros Hu. induction s as [|v s IH]; simpl.
  - rewrite Hu. now exists [].
  - destruct (is_white_space v); [exact IH|]. now exists (v :: s).
Qed.

Lemma trim_outer (s : jsstring) :
  (forall u rest, trim s = u :: rest -> is_white_space u = false)
  /\ (forall init u, trim s = init ++ [u] -> is_white_space u = false).
Proof.
  unfold trim, trimEnd. split.
  - intros u rest H.
    destruct (trimStart s) as [|v t] eqn:T.
    + simpl in H. discriminate.
    + pose proof (trimStart_head _ _ _ T) as Hv. simpl in H.
      destruct (trimStart_snoc (rev t) v Hv) as [init E]. rewrite E in H.
      rewrite rev_app_distr in H. simpl in H. now injection H as <- _.
  - intros init u H. apply (f_equal (@rev code_unit)) in H.
    rewrite rev_involutive, rev_app_distr in H. simpl in H.
    eapply trimStart_head. exact H.
Qed.

(** X13.  Whatever the cells of a row hold, the category, title and content
    of the snippet imported from it neither begin nor end with a white-space
    character. *)
Theorem snippet_of_row_trimmed Number_toString randomUUID (k : nat)
    (row : list cell) (field : jsstring) :
  In field [ category (snippet_of_row Number_toString randomUUID k row);
             title (snippet_of_row Number_toString randomUUID k row);
             content (snippet_of_row Number_toString randomUUID k row) ] ->
  (forall u rest, field = u :: rest -> is_white_space u = false)
  /\ (forall init u, field = init ++ [u] -> is_white_space u = false).
Proof.
  simpl. intros [<-|[<-|[<-|[]]]]; apply trim_outer.
Qed.

Lemma snippet_of_row_trimmed_witness :
  category (snippet_of_row example_Number_toString example_uuid 0
              [c_string (lit "  Sales "); c_string (lit "Greeting"); c_string (lit "Hello!")])
  = lit "Sales"
  /\ is_white_space 83%N = false.
Proof.
  split; [reflexivity|].
  apply (proj1 (snippet_of_row_trimmed example_Number_toString example_uuid 0
                  [c_string (lit "  Sales "); c_string (lit "Greeting"); c_string (lit "Hello!")]
                  (lit "Sales") (or_introl eq_refl))
           83%N (lit "ales") eq_refl).
Defined.
